(** * Orbital-mechanics kernel of the solar-system visualizer

    A shallow embedding of [src/exoII/src/components/SolarSystem.tsx]:
    the simulation clock ([useTimeSystem]), the position calculator
    ([calculateOrbitalPosition]), the fading trail ([Trail]) and the
    orbit ring ([OrbitRing]).

    The program computes with JavaScript Numbers.  The code is embedded
    once, over an interface [JSArith] of the Number operations it uses,
    and read at two instances:

    - [R]: exact real arithmetic, the reading in which the algebraic
      properties of the kernel (periodicity, norm preservation, ...) are
      exact equalities;
    - [jsnum]: reals extended with [+Infinity], [-Infinity] and [NaN],
      following the special-value rules of ECMAScript, the reading in
      which division by zero, overflow and NaN propagation are visible.

    Rounding and the sign of zero are not modelled. *)

From Stdlib Require Import ZArith Reals Lra Lia List Bool Psatz String RNsatz.
Import ListNotations.

Set Implicit Arguments.

(** ** The Number operations used by the program *)

Declare Scope js_scope.
Delimit Scope js_scope with js.

Class JSArith (T : Type) : Type := {
  lit : Z -> T;            (* an integer literal, or a loop counter *)
  Math_PI : T;
  add : T -> T -> T;
  sub : T -> T -> T;
  mul : T -> T -> T;
  div : T -> T -> T;
  neg : T -> T;
  Math_sin : T -> T;
  Math_cos : T -> T;
  Math_sqrt : T -> T;
  Math_atan2 : T -> T -> T;
  Math_max : T -> T -> T;
  lt : T -> T -> bool
}.

Infix "+" := add : js_scope.
Infix "-" := sub : js_scope.
Infix "*" := mul : js_scope.
Infix "/" := div : js_scope.
Notation "- x" := (neg x) : js_scope.
Infix "<?" := lt : js_scope.

(** *** Exact real arithmetic *)

(** [Math.atan2(y, x)] on reals: the angle of the point [(x, y)] in
    [(-PI, PI]], and [0] at the origin. *)
Definition Ratan2 (y x : R) : R :=
  if Rlt_dec 0 x then atan (y / x)
  else if Rlt_dec x 0 then
         if Rle_dec 0 y then atan (y / x) + PI else atan (y / x) - PI
  else if Rlt_dec 0 y then PI / 2
  else if Rlt_dec y 0 then - (PI / 2)
  else 0.

Definition Rltb (a b : R) : bool := if Rlt_dec a b then true else false.

#[export] Instance RealArith : JSArith R := {|
  lit := IZR;
  Math_PI := PI;
  add := Rplus;
  sub := Rminus;
  mul := Rmult;
  div := Rdiv;
  neg := Ropp;
  Math_sin := sin;
  Math_cos := cos;
  Math_sqrt := sqrt;
  Math_atan2 := Ratan2;
  Math_max := Rmax;
  lt := Rltb
|}.

(** *** Numbers with special values *)

Inductive jsnum : Type :=
| Fin (r : R)
| PInf
| NInf
| NaN.

(** The overflow threshold of binary64: an exact result of this magnitude
    or more is rounded to an infinity ([Number.MAX_VALUE] is
    [2^1024 - 2^971], and the threshold is half a unit in the last place
    above it). *)
Definition overflowThreshold : R := 2 ^ 1024 - 2 ^ 970.

(** The Number that an arithmetic operation gives when its exact result is
    the real [r]: an infinity from the overflow threshold on. *)
Definition js_number (r : R) : jsnum :=
  if Rle_dec overflowThreshold r then PInf
  else if Rle_dec r (- overflowThreshold) then NInf
  else Fin r.

(** The infinity that has the sign of [r]; [NaN] when [r] is zero. *)
Definition inf_of_sign (r : R) : jsnum :=
  if Req_dec_T r 0 then NaN else if Rlt_dec 0 r then PInf else NInf.

Definition js_neg (a : jsnum) : jsnum :=
  match a with
  | Fin r => Fin (- r)
  | PInf => NInf
  | NInf => PInf
  | NaN => NaN
  end.

Definition js_add (a b : jsnum) : jsnum :=
  match a, b with
  | NaN, _ | _, NaN => NaN
  | Fin r, Fin s => js_number (r + s)
  | PInf, NInf | NInf, PInf => NaN
  | PInf, _ | _, PInf => PInf
  | NInf, _ | _, NInf => NInf
  end.

Definition js_sub (a b : jsnum) : jsnum := js_add a (js_neg b).

Definition js_mul (a b : jsnum) : jsnum :=
  match a, b with
  | NaN, _ | _, NaN => NaN
  | Fin r, Fin s => js_number (r * s)
  | Fin r, PInf | PInf, Fin r => inf_of_sign r
  | Fin r, NInf | NInf, Fin r => inf_of_sign (- r)
  | PInf, PInf | NInf, NInf => PInf
  | PInf, NInf | NInf, PInf => NInf
  end.

Definition js_div (a b : jsnum) : jsnum :=
  match a, b with
  | NaN, _ | _, NaN => NaN
  | Fin r, Fin s => if Req_dec_T s 0 then inf_of_sign r else js_number (r / s)
  | Fin _, PInf | Fin _, NInf => Fin 0
  | PInf, Fin s => if Rlt_dec s 0 then NInf else PInf
  | NInf, Fin s => if Rlt_dec s 0 then PInf else NInf
  | PInf, PInf | PInf, NInf | NInf, PInf | NInf, NInf => NaN
  end.

Definition js_sin (a : jsnum) : jsnum :=
  match a with Fin r => Fin (sin r) | _ => NaN end.

Definition js_cos (a : jsnum) : jsnum :=
  match a with Fin r => Fin (cos r) | _ => NaN end.

Definition js_sqrt (a : jsnum) : jsnum :=
  match a with
  | Fin r => if Rlt_dec r 0 then NaN else Fin (sqrt r)
  | PInf => PInf
  | NInf | NaN => NaN
  end.

Definition js_atan2 (b a : jsnum) : jsnum :=
  match b, a with
  | NaN, _ | _, NaN => NaN
  | Fin s, Fin r => Fin (Ratan2 s r)
  | PInf, PInf => Fin (PI / 4)
  | PInf, NInf => Fin (3 * PI / 4)
  | PInf, Fin _ => Fin (PI / 2)
  | NInf, PInf => Fin (- (PI / 4))
  | NInf, NInf => Fin (- (3 * PI / 4))
  | NInf, Fin _ => Fin (- (PI / 2))
  | Fin _, PInf => Fin 0
  | Fin s, NInf => if Rlt_dec s 0 then Fin (- PI) else Fin PI
  end.

Definition js_max (a b : jsnum) : jsnum :=
  match a, b with
  | NaN, _ | _, NaN => NaN
  | PInf, _ | _, PInf => PInf
  | NInf, c | c, NInf => c
  | Fin r, Fin s => Fin (Rmax r s)
  end.

Definition js_lt (a b : jsnum) : bool :=
  match a, b with
  | NaN, _ | _, NaN => false
  | Fin r, Fin s => Rltb r s
  | _, NInf | PInf, _ => false
  | NInf, _ | _, PInf => true
  end.

#[export] Instance SpecialArith : JSArith jsnum := {|
  lit := fun n => Fin (IZR n);
  Math_PI := Fin PI;
  add := js_add;
  sub := js_sub;
  mul := js_mul;
  div := js_div;
  neg := js_neg;
  Math_sin := js_sin;
  Math_cos := js_cos;
  Math_sqrt := js_sqrt;
  Math_atan2 := js_atan2;
  Math_max := js_max;
  lt := js_lt
|}.

(** ** three.js vectors *)

Module THREE.

Record Vector3 (T : Type) : Type := mkVector3 { x : T; y : T; z : T }.

(** [Vector3.length()]: the Euclidean norm. *)
Definition length (v : Vector3 R) : R :=
  sqrt (x v * x v + y v * y v + z v * z v).

End THREE.

(** ** The program *)

Section Program.

Context {T : Type} `{JSArith T}.
Local Open Scope js_scope.

Local Notation "0" := (lit 0%Z) : js_scope.
Local Notation "1" := (lit 1%Z) : js_scope.
Local Notation "2" := (lit 2%Z) : js_scope.
Local Notation "10" := (lit 10%Z) : js_scope.
Local Notation "60" := (lit 60%Z) : js_scope.
Local Notation "180" := (lit 180%Z) : js_scope.

(** *** [calculateOrbitalPosition] *)

(** [const meanAnomaly = (time / orbitalPeriod) * Math.PI * 2] *)
Definition meanAnomaly (time orbitalPeriod : T) : T :=
  (time / orbitalPeriod) * Math_PI * 2.

(** The body of [for (let i = 0; i < 5; i++)], run [n] more times. *)
Fixpoint kepler_loop (n : nat) (meanAnomaly eccentricity eccentricAnomaly : T) : T :=
  match n with
  | O => eccentricAnomaly
  | S n' =>
      kepler_loop n' meanAnomaly eccentricity
        (meanAnomaly + eccentricity * Math_sin eccentricAnomaly)
  end.

(** [let eccentricAnomaly = meanAnomaly], then the five iterations. *)
Definition eccentricAnomaly (meanAnomaly eccentricity : T) : T :=
  kepler_loop 5 meanAnomaly eccentricity meanAnomaly.

Definition trueAnomaly (eccentricity eccentricAnomaly : T) : T :=
  2 * Math_atan2
        (Math_sqrt (1 + eccentricity) * Math_sin (eccentricAnomaly / 2))
        (Math_sqrt (1 - eccentricity) * Math_cos (eccentricAnomaly / 2)).

Definition distance (semiMajorAxis eccentricity trueAnomaly : T) : T :=
  semiMajorAxis * (1 - eccentricity * eccentricity)
  / (1 + eccentricity * Math_cos trueAnomaly).

Definition calculateOrbitalPosition
    (time semiMajorAxis eccentricity orbitalPeriod
     inclination longitudeOfAscendingNode argumentOfPeriapsis : T)
    : THREE.Vector3 T :=
  let meanAnomaly := meanAnomaly time orbitalPeriod in
  let eccentricAnomaly := eccentricAnomaly meanAnomaly eccentricity in
  let trueAnomaly := trueAnomaly eccentricity eccentricAnomaly in
  let distance := distance semiMajorAxis eccentricity trueAnomaly in
  let x_orbital := distance * Math_cos trueAnomaly in
  let y_orbital := distance * Math_sin trueAnomaly in
  let cos_omega := Math_cos (argumentOfPeriapsis * Math_PI / 180) in
  let sin_omega := Math_sin (argumentOfPeriapsis * Math_PI / 180) in
  let cos_i := Math_cos (inclination * Math_PI / 180) in
  let sin_i := Math_sin (inclination * Math_PI / 180) in
  let cos_Omega := Math_cos (longitudeOfAscendingNode * Math_PI / 180) in
  let sin_Omega := Math_sin (longitudeOfAscendingNode * Math_PI / 180) in
  let x := (cos_omega * cos_Omega - sin_omega * sin_Omega * cos_i) * x_orbital +
           (- sin_omega * cos_Omega - cos_omega * sin_Omega * cos_i) * y_orbital in
  let y := (cos_omega * sin_Omega + sin_omega * cos_Omega * cos_i) * x_orbital +
           (- sin_omega * sin_Omega + cos_omega * cos_Omega * cos_i) * y_orbital in
  let z := (sin_omega * sin_i) * x_orbital + (cos_omega * sin_i) * y_orbital in
  THREE.mkVector3 x y z.

(** *** Configuration *)

(** An entry of [SolarSystemConfig.planets]. *)
Record Planet : Type := mkPlanet {
  radius : T;
  semiMajorAxis : T;
  eccentricity : T;
  color : string;
  orbitalPeriod : T;
  rotationPeriod : T;
  inclination : T;
  longitudeOfAscendingNode : T;
  argumentOfPeriapsis : T;
  axialTilt : T;
  name : string
}.

(** [SolarSystemConfig.time] *)
Record TimeConfig : Type := mkTimeConfig {
  speed : T;
  paused : bool
}.

(** [SolarSystemConfig.render] *)
Record RenderConfig : Type := mkRenderConfig {
  showOrbits : bool;
  showTrails : bool;
  trailLength : T;
  trailFade : bool
}.

(** [SolarSystemConfig]; the [sun] and [camera] entries play no part in
    the clock, the positions, the trails or the rings and are left out. *)
Record SolarSystemConfig : Type := mkConfig {
  planets : list Planet;
  time : TimeConfig;
  render : RenderConfig
}.

(** A decimal literal with one digit after the point: [tenths 235] is
    [23.5]. *)
Definition tenths (n : Z) : T := lit n / 10.

Definition defaultConfig : SolarSystemConfig := {|
  planets := [
    {| radius := tenths 4; semiMajorAxis := lit 8; eccentricity := tenths 2;
       color := "#8C7853"; orbitalPeriod := lit 12; rotationPeriod := 1;
       inclination := lit 15; longitudeOfAscendingNode := 0;
       argumentOfPeriapsis := 0; axialTilt := tenths 235; name := "Mercury" |};
    {| radius := tenths 9; semiMajorAxis := lit 12; eccentricity := tenths 1;
       color := "#FFC649"; orbitalPeriod := lit 20; rotationPeriod := tenths 15;
       inclination := lit (-10); longitudeOfAscendingNode := lit 45;
       argumentOfPeriapsis := lit 30; axialTilt := 0; name := "Venus" |};
    {| radius := tenths 5; semiMajorAxis := lit 5; eccentricity := tenths 4;
       color := "#CD5C5C"; orbitalPeriod := lit 8; rotationPeriod := tenths 8;
       inclination := lit 25; longitudeOfAscendingNode := lit 120;
       argumentOfPeriapsis := 60; axialTilt := lit 45; name := "Mars" |}
  ];
  time := {| speed := 1; paused := false |};
  render := {| showOrbits := true; showTrails := false;
               trailLength := lit 100; trailFade := true |}
|}.

(** *** The simulation clock, [useTimeSystem] *)

(** [useState(0)] *)
Definition initialTime : T := 0.

(** The [useFrame] callback: [setTime(prev => prev + delta * speed)]
    unless the clock is paused. *)
Definition useFrame_tick (config : SolarSystemConfig) (delta prev : T) : T :=
  if negb (paused (time config)) then prev + delta * speed (time config)
  else prev.

(** [updateConfig({ time: ... })]: the [time] entry is replaced, the other
    entries are kept. *)
Definition updateConfig_time (config : SolarSystemConfig) (t : TimeConfig)
    : SolarSystemConfig :=
  {| planets := planets config; time := t; render := render config |}.

(** [updateConfig({ render: ... })] *)
Definition updateConfig_render (config : SolarSystemConfig) (r : RenderConfig)
    : SolarSystemConfig :=
  {| planets := planets config; time := time config; render := r |}.

(** What can happen between two renders: a frame of [delta] seconds, or
    one of the controls of the panel. *)
Inductive Event : Type :=
| Frame (delta : T)
| PlayPauseButton                 (* paused: !config.time.paused *)
| RotateCcwButton                 (* paused: true *)
| SpeedSlider (value : T)         (* speed: value *)
| RenderControl (r : RenderConfig).

(** The state of the scene: the configuration and the clock. *)
Record Scene : Type := mkScene {
  config : SolarSystemConfig;
  clock : T
}.

Definition initialScene : Scene :=
  {| config := defaultConfig; clock := initialTime |}.

Definition step (s : Scene) (ev : Event) : Scene :=
  match ev with
  | Frame delta =>
      {| config := config s; clock := useFrame_tick (config s) delta (clock s) |}
  | PlayPauseButton =>
      {| config := updateConfig_time (config s)
                     {| speed := speed (time (config s));
                        paused := negb (paused (time (config s))) |};
         clock := clock s |}
  | RotateCcwButton =>
      {| config := updateConfig_time (config s)
                     {| speed := speed (time (config s)); paused := true |};
         clock := clock s |}
  | SpeedSlider value =>
      {| config := updateConfig_time (config s)
                     {| speed := value; paused := paused (time (config s)) |};
         clock := clock s |}
  | RenderControl r =>
      {| config := updateConfig_render (config s) r; clock := clock s |}
  end.

Definition run (s : Scene) (evs : list Event) : Scene := fold_left step evs s.

(** *** [Trail] *)

Record TrailSegment : Type := mkSegment {
  position : THREE.Vector3 T;
  opacity : T
}.

Definition maxAngleDegrees : T := 60.
Definition maxAngleRadians : T := (maxAngleDegrees * Math_PI) / 180.
Definition numSegments : nat := 60.

(** [time - (i * angleStep * planet.orbitalPeriod / (Math.PI * 2))] *)
Definition trailTime (planet : Planet) (time : T) (i : nat) : T :=
  let angleStep := maxAngleRadians / lit (Z.of_nat numSegments) in
  time - (lit (Z.of_nat i) * angleStep * orbitalPeriod planet / (Math_PI * 2)).

(** [Math.max(0, 1 - (i / numSegments))] *)
Definition trailOpacity (i : nat) : T :=
  Math_max 0 (1 - (lit (Z.of_nat i) / lit (Z.of_nat numSegments))).

(** The loop [for (let i = ...; i < numSegments; i++)] with [fuel]
    iterations left: a sample whose time is negative is skipped
    ([continue]), the others are pushed at the end of [segments]. *)
Fixpoint trail_loop (fuel i : nat) (planet : Planet) (time : T)
    (segments : list TrailSegment) : list TrailSegment :=
  match fuel with
  | O => segments
  | S fuel' =>
      let trailTime := trailTime planet time i in
      if trailTime <? 0 then trail_loop fuel' (S i) planet time segments
      else
        let position :=
          calculateOrbitalPosition trailTime
            (semiMajorAxis planet) (eccentricity planet) (orbitalPeriod planet)
            (inclination planet) (longitudeOfAscendingNode planet)
            (argumentOfPeriapsis planet) in
        let opacity := trailOpacity i in
        trail_loop fuel' (S i) planet time
          (segments ++ [ {| position := position; opacity := opacity |} ])
  end.

(** The segments as the loop leaves them: newest first. *)
Definition generatedSegments (planet : Planet) (time : T) : list TrailSegment :=
  trail_loop numSegments 0 planet time [].

(** The memoised [trailSegments]: empty when trails are off, otherwise
    the generated segments reversed, oldest first. *)
Definition trailSegments (config : SolarSystemConfig) (planet : Planet) (time : T)
    : list TrailSegment :=
  if negb (showTrails (render config)) then []
  else rev (generatedSegments planet time).

(** A rendered [<Line>] of the trail. *)
Record TrailLine : Type := mkLine {
  points : THREE.Vector3 T * THREE.Vector3 T;
  lineOpacity : T
}.

(** [trailSegments.map(...)]: one line from each segment to the next, none
    for the last segment. *)
Fixpoint trailLines (segments : list TrailSegment) : list TrailLine :=
  match segments with
  | segment :: ((nextSegment :: _) as rest) =>
      let avgOpacity := (opacity segment + opacity nextSegment) / 2 in
      {| points := (position segment, position nextSegment);
         lineOpacity := avgOpacity * 1 |} :: trailLines rest
  | _ => []
  end.

(** What [Trail] renders: [None] is [null]. *)
Definition Trail (config : SolarSystemConfig) (planet : Planet) (time : T)
    : option (list TrailLine) :=
  let trailSegments := trailSegments config planet time in
  if negb (showTrails (render config)) || (List.length trailSegments <? 2)%nat
  then None
  else Some (trailLines trailSegments).

(** *** [OrbitRing] *)

Definition segments : nat := 64.

(** The sample of the ring at step [i]: the position at the dummy time
    [angle / (2 PI) * 10] of an orbit of dummy period [10]. *)
Definition ringPoint (planet : Planet) (i : nat) : THREE.Vector3 T :=
  let angle := (lit (Z.of_nat i) / lit (Z.of_nat segments)) * Math_PI * 2 in
  calculateOrbitalPosition
    (angle / (Math_PI * 2) * 10)
    (semiMajorAxis planet) (eccentricity planet)
    10
    (inclination planet) (longitudeOfAscendingNode planet)
    (argumentOfPeriapsis planet).

(** The loop [for (let i = ...; i <= segments; i++)] with [fuel]
    iterations left. *)
Fixpoint ring_loop (fuel i : nat) (planet : Planet)
    (points : list (THREE.Vector3 T)) : list (THREE.Vector3 T) :=
  match fuel with
  | O => points
  | S fuel' => ring_loop fuel' (S i) planet (points ++ [ringPoint planet i])
  end.

Definition ringPoints (planet : Planet) : list (THREE.Vector3 T) :=
  ring_loop (S segments) 0 planet [].

(** What [OrbitRing] renders: the polyline, or [None] when orbits are
    hidden. *)
Definition OrbitRing (config : SolarSystemConfig) (planet : Planet)
    : option (list (THREE.Vector3 T)) :=
  if negb (showOrbits (render config)) then None else Some (ringPoints planet).

(** What [SolarSystemScene] renders for the planet of index [index] at
    clock value [time]: its ring, its trail and its position. *)
Definition renderPlanet (config : SolarSystemConfig) (time : T) (planet : Planet)
    : option (list (THREE.Vector3 T)) * option (list TrailLine) * THREE.Vector3 T :=
  (OrbitRing config planet,
   Trail config planet time,
   calculateOrbitalPosition time
     (semiMajorAxis planet) (eccentricity planet) (orbitalPeriod planet)
     (inclination planet) (longitudeOfAscendingNode planet)
     (argumentOfPeriapsis planet)).

End Program.

Arguments Planet T : clear implicits.
Arguments TimeConfig T : clear implicits.
Arguments RenderConfig T : clear implicits.
Arguments SolarSystemConfig T : clear implicits.
Arguments Event T : clear implicits.
Arguments Scene T : clear implicits.
Arguments TrailSegment T : clear implicits.
Arguments TrailLine T : clear implicits.

(** ** The reference algorithm of the specification

    Section 4.1 of the specification, in exact real arithmetic, with the
    rotation written as a product of matrices. *)

Module Reference.

Local Open Scope R_scope.

Definition Matrix3 : Type := THREE.Vector3 (THREE.Vector3 R).

Definition dot (u v : THREE.Vector3 R) : R :=
  THREE.x u * THREE.x v + THREE.y u * THREE.y v + THREE.z u * THREE.z v.

Definition column_x (m : Matrix3) : THREE.Vector3 R :=
  THREE.mkVector3 (THREE.x (THREE.x m)) (THREE.x (THREE.y m)) (THREE.x (THREE.z m)).
Definition column_y (m : Matrix3) : THREE.Vector3 R :=
  THREE.mkVector3 (THREE.y (THREE.x m)) (THREE.y (THREE.y m)) (THREE.y (THREE.z m)).
Definition column_z (m : Matrix3) : THREE.Vector3 R :=
  THREE.mkVector3 (THREE.z (THREE.x m)) (THREE.z (THREE.y m)) (THREE.z (THREE.z m)).

Definition mat_vec (m : Matrix3) (v : THREE.Vector3 R) : THREE.Vector3 R :=
  THREE.mkVector3 (dot (THREE.x m) v) (dot (THREE.y m) v) (dot (THREE.z m) v).

Definition mat_mul (m n : Matrix3) : Matrix3 :=
  let row r :=
    THREE.mkVector3 (dot r (column_x n)) (dot r (column_y n)) (dot r (column_z n)) in
  THREE.mkVector3 (row (THREE.x m)) (row (THREE.y m)) (row (THREE.z m)).

Definition R_z (theta : R) : Matrix3 :=
  THREE.mkVector3
    (THREE.mkVector3 (cos theta) (- sin theta) 0)
    (THREE.mkVector3 (sin theta) (cos theta) 0)
    (THREE.mkVector3 0 0 1).

Definition R_x (theta : R) : Matrix3 :=
  THREE.mkVector3
    (THREE.mkVector3 1 0 0)
    (THREE.mkVector3 0 (cos theta) (- sin theta))
    (THREE.mkVector3 0 (sin theta) (cos theta)).

Definition transpose (m : Matrix3) : Matrix3 :=
  THREE.mkVector3 (column_x m) (column_y m) (column_z m).

Definition identity : Matrix3 :=
  THREE.mkVector3
    (THREE.mkVector3 1 0 0) (THREE.mkVector3 0 1 0) (THREE.mkVector3 0 0 1).

Definition radians (degrees : R) : R := degrees * (PI / 180).

(** Step 1: [M = (time / orbitalPeriod) * 2 PI]. *)
Definition mean_anomaly (t P : R) : R := (t / P) * (2 * PI).

(** Step 2: the 5th iterate of [x |-> M + e sin x] from [M]. *)
Definition eccentric_anomaly (M e : R) : R :=
  Nat.iter 5 (fun x => M + e * sin x) M.

(** Step 3. *)
Definition true_anomaly (e E : R) : R :=
  2 * Ratan2 (sqrt (1 + e) * sin (E / 2)) (sqrt (1 - e) * cos (E / 2)).

(** Step 4. *)
Definition radius (a e nu : R) : R := a * (1 - e ^ 2) / (1 + e * cos nu).

(** The orientation of the orbit: [R_z(Omega) . R_x(i) . R_z(omega)],
    angles in degrees. *)
Definition orientation (i Omega omega : R) : Matrix3 :=
  mat_mul (R_z (radians Omega)) (mat_mul (R_x (radians i)) (R_z (radians omega))).

(** Steps 5 and 6. *)
Definition position (t a e P i Omega omega : R) : THREE.Vector3 R :=
  let M := mean_anomaly t P in
  let E := eccentric_anomaly M e in
  let nu := true_anomaly e E in
  let r := radius a e nu in
  mat_vec (orientation i Omega omega) (THREE.mkVector3 (r * cos nu) (r * sin nu) 0).

End Reference.

(** ** The kernel in exact arithmetic *)

Section RealKernel.

Local Open Scope R_scope.

(** The true anomaly and the radius that [calculateOrbitalPosition]
    computes at [time], for an orbit of eccentricity [e] and period [P]. *)
Definition trueAnomalyAt (time e P : R) : R :=
  trueAnomaly e (eccentricAnomaly (meanAnomaly time P) e).

Definition distanceAt (time a e P : R) : R :=
  distance a e (trueAnomalyAt time e P).

(** The position of a planet at [time]. *)
Definition planetPosition (planet : Planet R) (time : R) : THREE.Vector3 R :=
  calculateOrbitalPosition time
    (semiMajorAxis planet) (eccentricity planet) (orbitalPeriod planet)
    (inclination planet) (longitudeOfAscendingNode planet)
    (argumentOfPeriapsis planet).

(** The orbital elements that the data model allows. *)
Definition validElements (planet : Planet R) : Prop :=
  0 < semiMajorAxis planet /\
  0 <= eccentricity planet < 1 /\
  0 < orbitalPeriod planet.

(** The events that the render loop and the control panel can produce: a
    frame lasts a non-negative time, and the speed slider ranges over
    [[0.1, 5]] ([min={0.1} max={5}]). *)
Definition validEvent (ev : Event R) : Prop :=
  match ev with
  | Frame delta => 0 <= delta
  | SpeedSlider value => 1 / 10 <= value <= 5
  | _ => True
  end.

(** The segment that the loop of [Trail] pushes at iteration [i]. *)
Definition segmentAt (planet : Planet R) (time : R) (i : nat) : TrailSegment R :=
  {| position := planetPosition planet (trailTime planet time i);
     opacity := trailOpacity i |}.

(** Whether iteration [i] of the loop of [Trail] pushes a segment. *)
Definition kept (planet : Planet R) (time : R) (i : nat) : bool :=
  negb (trailTime planet time i <? 0)%js.

(** The time that [angle] degrees of orbital phase take. *)
Definition lookBack (planet : Planet R) (angle : R) : R :=
  angle * (PI / 180) * orbitalPeriod planet / (2 * PI).

(** The opacity of the oldest rendered line of a trail, when there is
    one. *)
Definition oldestLineOpacity (lines : option (list (TrailLine R))) : option R :=
  match lines with
  | Some (line :: _) => Some (lineOpacity line)
  | _ => None
  end.

(** The planets of the default configuration. *)
Definition mercury : Planet R := nth 0 (planets defaultConfig) (mkPlanet 0 0 0 "" 0 0 0 0 0 0 "").
Definition venus : Planet R := nth 1 (planets defaultConfig) mercury.
Definition mars : Planet R := nth 2 (planets defaultConfig) mercury.

(** A list of numbers that never increases from one entry to the next. *)
Fixpoint nonIncreasing (l : list R) : Prop :=
  match l with
  | a :: ((b :: _) as rest) => b <= a /\ nonIncreasing rest
  | _ => True
  end.

End RealKernel.

(** ** Completion of a call *)

(** A call either returns a value or throws. *)
Inductive Completion (A : Type) : Type :=
| Returns (value : A)
| Throws (error : string).

Arguments Throws {A} error.

(** [calculateOrbitalPosition] has no [throw] statement and calls only
    [Math] functions, which do not throw on Numbers: every call returns. *)
Definition call_calculateOrbitalPosition
    (time semiMajorAxis eccentricity orbitalPeriod
     inclination longitudeOfAscendingNode argumentOfPeriapsis : jsnum)
    : Completion (THREE.Vector3 jsnum) :=
  Returns (calculateOrbitalPosition time semiMajorAxis eccentricity orbitalPeriod
             inclination longitudeOfAscendingNode argumentOfPeriapsis).

(** A Number that is neither [NaN] nor an infinity. *)
Definition isFinite (a : jsnum) : bool :=
  match a with Fin _ => true | _ => false end.

(** A magnitude far from the overflow threshold: at most a sixteenth of
    it. *)
Definition farFromOverflow (r : R) : Prop :=
  (Rabs r <= overflowThreshold / 16)%R.

(** Ranges of magnitudes, for the intermediate results of the rotation. *)
Definition unitRange (r : R) : Prop := (Rabs r <= 1)%R.
Definition pairRange (r : R) : Prop := (Rabs r <= 2)%R.
Definition eighthRange (r : R) : Prop := (Rabs r <= overflowThreshold / 8)%R.
Definition quarterRange (r : R) : Prop := (Rabs r <= overflowThreshold / 4)%R.

(** The embedding of a real vector. *)
Definition finVector (v : THREE.Vector3 R) : THREE.Vector3 jsnum :=
  THREE.mkVector3 (Fin (THREE.x v)) (Fin (THREE.y v)) (Fin (THREE.z v)).

(** ** The rest of the scene *)

Section Components.

Context {T : Type} `{JSArith T}.
Local Open Scope js_scope.

(** A decimal literal with two digits after the point: [hundredths 115]
    is [1.15]. *)
Definition hundredths (n : Z) : T := lit n / lit 100.

(** [SolarSystemConfig.sun]; its [radius] is named [sun_radius] here, the
    planets have a [radius] of their own. *)
Record SunConfig : Type := mkSunConfig {
  sun_radius : T;
  emission : T
}.

(** [SolarSystemConfig.camera.mode] *)
Inductive CameraMode : Type := free | follow.

(** [SolarSystemConfig.camera] *)
Record CameraConfig : Type := mkCameraConfig {
  mode : CameraMode;
  followPlanet : nat;
  preset : string
}.

(** The whole [SolarSystemConfig]: the entries [planets], [time] and
    [render] modelled above, with [sun] and [camera]. *)
Record FullConfig : Type := mkFullConfig {
  sun : SunConfig;
  shared : SolarSystemConfig T;
  camera : CameraConfig
}.

Definition defaultFullConfig : FullConfig := {|
  sun := {| sun_radius := lit 2; emission := lit 1 |};
  shared := defaultConfig;
  camera := {| mode := free; followPlanet := 0; preset := "default" |}
|}.

(** *** [updateConfig] *)

(** A [Partial<SolarSystemConfig>]: each entry is present or not. *)
Record ConfigUpdates : Type := mkUpdates {
  new_sun : option SunConfig;
  new_planets : option (list (Planet T));
  new_time : option (TimeConfig T);
  new_render : option (RenderConfig T);
  new_camera : option CameraConfig
}.

(** The function passed to [setConfig]: the entries that [updates] has
    replace those of [prev], one after the other.  An entry of [updates]
    has all its fields, so that spreading it over the old entry gives the
    new entry. *)
Definition updateConfig (prev : FullConfig) (updates : ConfigUpdates) : FullConfig :=
  let newConfig := prev in
  let newConfig :=
    match new_sun updates with
    | Some s => {| sun := s; shared := shared newConfig; camera := camera newConfig |}
    | None => newConfig
    end in
  let newConfig :=
    match new_planets updates with
    | Some ps =>
        {| sun := sun newConfig;
           shared := {| planets := ps; time := time (shared newConfig);
                        render := render (shared newConfig) |};
           camera := camera newConfig |}
    | None => newConfig
    end in
  let newConfig :=
    match new_time updates with
    | Some t =>
        {| sun := sun newConfig; shared := updateConfig_time (shared newConfig) t;
           camera := camera newConfig |}
    | None => newConfig
    end in
  let newConfig :=
    match new_render updates with
    | Some r =>
        {| sun := sun newConfig; shared := updateConfig_render (shared newConfig) r;
           camera := camera newConfig |}
    | None => newConfig
    end in
  let newConfig :=
    match new_camera updates with
    | Some c => {| sun := sun newConfig; shared := shared newConfig; camera := c |}
    | None => newConfig
    end in
  newConfig.

(** *** The camera *)

(** [getCameraPosition]: the [switch] over the preset, with its [default]
    branch. *)
Definition getCameraPosition (preset : string) : T * T * T :=
  if String.eqb preset "top" then (lit 0, lit 30, lit 0)
  else if String.eqb preset "ecliptic" then (lit 20, lit 5, lit 15)
  else if String.eqb preset "side" then (lit 25, lit 0, lit 0)
  else (lit 15, lit 10, lit 15).

(** The zoom range of the [OrbitControls] of the scene, around its
    target. *)
Definition minDistance : T := lit 5.
Definition maxDistance : T := lit 50.

(** [getCameraTarget]: the position of the followed planet, or the origin
    when the camera is free or the followed index names no planet. *)
Definition getCameraTarget (config : FullConfig) (time : T) : T * T * T :=
  match mode (camera config),
        nth_error (planets (shared config)) (followPlanet (camera config)) with
  | follow, Some planet =>
      let position :=
        calculateOrbitalPosition time
          (semiMajorAxis planet) (eccentricity planet) (orbitalPeriod planet)
          (inclination planet) (longitudeOfAscendingNode planet)
          (argumentOfPeriapsis planet) in
      (THREE.x position, THREE.y position, THREE.z position)
  | _, _ => (lit 0, lit 0, lit 0)
  end.

(** *** [Sun] *)

(** The scales that the frame callback gives to the body of the sun, to
    its corona and to its outer glow. *)
Definition pulse (elapsedTime : T) : T :=
  Math_sin (elapsedTime * tenths 5) * hundredths 5 + lit 1.

Definition coronaPulse (elapsedTime : T) : T :=
  Math_sin (elapsedTime * tenths 7) * hundredths 15 + lit 1.

Definition glowPulse (elapsedTime : T) : T :=
  Math_sin (elapsedTime * tenths 3) * hundredths 8 + lit 1.

(** The radii of the four spheres of the sun as they are drawn: the
    radius of the geometry, times the scale of the mesh when it has
    one. *)
Definition outerGlowRadius (config : FullConfig) (elapsedTime : T) : T :=
  sun_radius (sun config) * lit 2 * glowPulse elapsedTime.

Definition coronaRadius (config : FullConfig) (elapsedTime : T) : T :=
  sun_radius (sun config) * hundredths 115 * coronaPulse elapsedTime.

Definition bodyRadius (config : FullConfig) (elapsedTime : T) : T :=
  sun_radius (sun config) * pulse elapsedTime.

Definition coreRadius (config : FullConfig) : T :=
  sun_radius (sun config) * hundredths 95.

(** *** [Planet] *)

(** [(time / planet.rotationPeriod) * Math.PI * 2] *)
Definition rotationAngle (planet : Planet T) (time : T) : T :=
  (time / rotationPeriod planet) * Math_PI * lit 2.

(** [planet.axialTilt * (Math.PI / 180)] *)
Definition tiltAngle (planet : Planet T) : T :=
  axialTilt planet * (Math_PI / lit 180).

End Components.

Arguments SunConfig T : clear implicits.
Arguments FullConfig T : clear implicits.
Arguments ConfigUpdates T : clear implicits.

(** ** The name tag, in exact arithmetic *)

Module Vector3.

Local Open Scope R_scope.

(** [crossVectors(a, b)] *)
Definition crossVectors (a b : THREE.Vector3 R) : THREE.Vector3 R :=
  THREE.mkVector3
    (THREE.y a * THREE.z b - THREE.z a * THREE.y b)
    (THREE.z a * THREE.x b - THREE.x a * THREE.z b)
    (THREE.x a * THREE.y b - THREE.y a * THREE.x b).

(** [divideScalar(s)] *)
Definition divideScalar (v : THREE.Vector3 R) (s : R) : THREE.Vector3 R :=
  THREE.mkVector3 (THREE.x v / s) (THREE.y v / s) (THREE.z v / s).

(** [normalize()]: [divideScalar(length() || 1)], so that the zero vector
    stays the zero vector. *)
Definition normalize (v : THREE.Vector3 R) : THREE.Vector3 R :=
  divideScalar v (if Req_dec_T (THREE.length v) 0 then 1 else THREE.length v).

(** [multiplyScalar(s)] *)
Definition multiplyScalar (v : THREE.Vector3 R) (s : R) : THREE.Vector3 R :=
  THREE.mkVector3 (THREE.x v * s) (THREE.y v * s) (THREE.z v * s).

(** [add(w)] *)
Definition add (v w : THREE.Vector3 R) : THREE.Vector3 R :=
  THREE.mkVector3 (THREE.x v + THREE.x w) (THREE.y v + THREE.y w)
                  (THREE.z v + THREE.z w).

End Vector3.

(** What the frame callback of [PlanetNameTag] gives to the tag. *)
Record TagPlacement : Type := mkTagPlacement {
  tagPosition : THREE.Vector3 R;
  tagRotation : THREE.Vector3 R
}.

(** The frame callback of [PlanetNameTag], from the direction and the
    position of the camera. *)
Definition placeNameTag (cameraDirection cameraPos planetPosition : THREE.Vector3 R)
    (planetRadius : R) : TagPlacement :=
  let up := THREE.mkVector3 0%R 1%R 0%R in
  let right := Vector3.normalize (Vector3.crossVectors cameraDirection up) in
  let offset := Vector3.multiplyScalar right (planetRadius + 3 / 2)%R in
  let tagPos := Vector3.add planetPosition offset in
  let horizontalDir :=
    Vector3.normalize
      (THREE.mkVector3 (THREE.x cameraPos - THREE.x tagPos)%R 0%R
                       (THREE.z cameraPos - THREE.z tagPos)%R) in
  let angle := Ratan2 (THREE.x horizontalDir) (THREE.z horizontalDir) in
  {| tagPosition := tagPos; tagRotation := THREE.mkVector3 0%R angle 0%R |}.

(** ** Further notions for the properties *)

(** The sum of the durations of a list of frames. *)
Definition totalElapsed (deltas : list R) : R := fold_right Rplus 0%R deltas.

(** An event other than the play/pause button. *)
Definition notPlayPause (ev : Event R) : Prop :=
  match ev with PlayPauseButton => False | _ => True end.

(** The updates of [second] over those of [first]. *)
Definition mergeUpdates (first second : ConfigUpdates R) : ConfigUpdates R :=
  let over {A : Type} (a b : option A) : option A :=
    match b with Some _ => b | None => a end in
  {| new_sun := over (new_sun first) (new_sun second);
     new_planets := over (new_planets first) (new_planets second);
     new_time := over (new_time first) (new_time second);
     new_render := over (new_render first) (new_render second);
     new_camera := over (new_camera first) (new_camera second) |}.

Definition noUpdates : ConfigUpdates R :=
  {| new_sun := None; new_planets := None; new_time := None;
     new_render := None; new_camera := None |}.

(** The Euclidean norm of a triple. *)
Definition norm3 (p : R * R * R) : R :=
  let '(a, b, c) := p in sqrt (a * a + b * b + c * c)%R.

Unset Implicit Arguments.

(** * Properties *)

Local Open Scope R_scope.

(** ** Unfolding the kernel at the reals *)

Lemma calculateOrbitalPosition_real (t a e P i Om om : R) :
  calculateOrbitalPosition t a e P i Om om =
  let nu := trueAnomalyAt t e P in
  let r := distanceAt t a e P in
  let xo := r * cos nu in
  let yo := r * sin nu in
  let co := cos (om * PI / 180) in
  let so := sin (om * PI / 180) in
  let ci := cos (i * PI / 180) in
  let si := sin (i * PI / 180) in
  let cO := cos (Om * PI / 180) in
  let sO := sin (Om * PI / 180) in
  THREE.mkVector3
    ((co * cO - so * sO * ci) * xo + (- so * cO - co * sO * ci) * yo)
    ((co * sO + so * cO * ci) * xo + (- so * sO + co * cO * ci) * yo)
    (so * si * xo + co * si * yo).
Proof. reflexivity. Qed.

Lemma kepler_loop_iter (n : nat) (M e x : R) :
  kepler_loop n M e x = Nat.iter n (fun y => M + e * sin y) x.
Proof.
  revert x. induction n as [|n IH]; intros x; [reflexivity|].
  cbn [kepler_loop]. rewrite IH.
  symmetry. exact (Nat.iter_succ_r n R (fun y => M + e * sin y) x).
Qed.

(** ** C2: the code is the reference algorithm *)

Lemma meanAnomaly_reference (t P : R) :
  meanAnomaly t P = Reference.mean_anomaly t P.
Proof. unfold meanAnomaly, Reference.mean_anomaly. cbn. ring. Qed.

Lemma eccentricAnomaly_reference (M e : R) :
  eccentricAnomaly M e = Reference.eccentric_anomaly M e.
Proof. unfold eccentricAnomaly. rewrite kepler_loop_iter. reflexivity. Qed.

Lemma trueAnomaly_reference (e E : R) :
  trueAnomaly e E = Reference.true_anomaly e E.
Proof. reflexivity. Qed.

Lemma distance_reference (a e nu : R) :
  distance a e nu = Reference.radius a e nu.
Proof. unfold distance, Reference.radius. cbn. f_equal. ring. Qed.

(** The expanded formulas of the code are the product of the three
    rotation matrices applied to the in-plane point. *)
Lemma rotation_reference (xo yo i Om om : R) :
  let co := cos (om * PI / 180) in
  let so := sin (om * PI / 180) in
  let ci := cos (i * PI / 180) in
  let si := sin (i * PI / 180) in
  let cO := cos (Om * PI / 180) in
  let sO := sin (Om * PI / 180) in
  THREE.mkVector3
    ((co * cO - so * sO * ci) * xo + (- so * cO - co * sO * ci) * yo)
    ((co * sO + so * cO * ci) * xo + (- so * sO + co * cO * ci) * yo)
    (so * si * xo + co * si * yo) =
  Reference.mat_vec (Reference.orientation i Om om) (THREE.mkVector3 xo yo 0).
Proof.
  unfold Reference.orientation, Reference.radians, Reference.R_z, Reference.R_x.
  replace (om * PI / 180) with (om * (PI / 180)) by (unfold Rdiv; ring).
  replace (Om * PI / 180) with (Om * (PI / 180)) by (unfold Rdiv; ring).
  replace (i * PI / 180) with (i * (PI / 180)) by (unfold Rdiv; ring).
  generalize (cos (om * (PI / 180))) (sin (om * (PI / 180)))
             (cos (i * (PI / 180))) (sin (i * (PI / 180)))
             (cos (Om * (PI / 180))) (sin (Om * (PI / 180))).
  intros co so ci si cO sO.
  cbv [Reference.mat_vec Reference.mat_mul Reference.dot Reference.R_z
       Reference.R_x Reference.column_x Reference.column_y Reference.column_z
       THREE.x THREE.y THREE.z].
  f_equal; ring.
Qed.

(** C2. For every time [t], [a > 0], [e] in [[0,1)], [P > 0] and
    orientation angles in degrees, [calculateOrbitalPosition] equals the
    reference algorithm of the specification: mean anomaly
    [(t/P) * 2 PI], not reduced; eccentric anomaly the 5th iterate of
    [x |-> M + e sin x] from [M]; true anomaly by [atan2] of the half
    angle; radius [a (1 - e^2) / (1 + e cos nu)]; and the matrix
    [R_z(Omega) R_x(i) R_z(omega)] applied to [(r cos nu, r sin nu, 0)]
    with the angles converted to radians. *)
Theorem calculateOrbitalPosition_refines_reference (t a e P i Om om : R) :
  0 < a -> 0 <= e < 1 -> 0 < P ->
  calculateOrbitalPosition t a e P i Om om = Reference.position t a e P i Om om.
Proof.
  intros _ _ _.
  rewrite calculateOrbitalPosition_real. cbv zeta.
  rewrite rotation_reference.
  unfold trueAnomalyAt, distanceAt, trueAnomalyAt.
  rewrite distance_reference, trueAnomaly_reference,
    eccentricAnomaly_reference, meanAnomaly_reference.
  reflexivity.
Qed.

Lemma calculateOrbitalPosition_refines_reference_witness :
  calculateOrbitalPosition 3 8 (1/5) 12 15 0 0 =
  Reference.position 3 8 (1/5) 12 15 0 0.
Proof.
  apply (calculateOrbitalPosition_refines_reference 3 8 (1/5) 12 15 0 0); lra.
Defined.

(** ** Facts of trigonometry *)

Lemma sin_cos_sq (x : R) : sin x * sin x + cos x * cos x = 1.
Proof. generalize (sin2_cos2 x). unfold Rsqr. trivial. Qed.

Lemma sin_add_2PI (x : R) : sin (x + 2 * PI) = sin x.
Proof. rewrite sin_plus, cos_2PI, sin_2PI. ring. Qed.

Lemma cos_add_2PI (x : R) : cos (x + 2 * PI) = cos x.
Proof. rewrite cos_plus, cos_2PI, sin_2PI. ring. Qed.

Lemma sin_sub_2PI (x : R) : sin (x - 2 * PI) = sin x.
Proof. rewrite <- (sin_add_2PI (x - 2 * PI)). f_equal. ring. Qed.

Lemma cos_sub_2PI (x : R) : cos (x - 2 * PI) = cos x.
Proof. rewrite <- (cos_add_2PI (x - 2 * PI)). f_equal. ring. Qed.

(** [atan2] of the opposite point is half a turn away. *)
Lemma Ratan2_opp (y x : R) :
  x <> 0 \/ y <> 0 ->
  Ratan2 (- y) (- x) = Ratan2 y x + PI \/ Ratan2 (- y) (- x) = Ratan2 y x - PI.
Proof.
  intros Hnz. unfold Ratan2.
  assert (Hq : x <> 0 -> - y / - x = y / x) by (intros; field; assumption).
  destruct (Rlt_dec 0 x) as [Hx|Hx].
  - destruct (Rlt_dec 0 (- x)); [lra|].
    destruct (Rlt_dec (- x) 0); [|lra].
    rewrite Hq by lra.
    destruct (Rle_dec 0 (- y)); [left|right]; reflexivity.
  - destruct (Rlt_dec x 0) as [Hx'|Hx'].
    + destruct (Rlt_dec 0 (- x)); [|lra].
      rewrite Hq by lra.
      destruct (Rle_dec 0 y); [right|left]; ring.
    + assert (x = 0) by lra. subst x.
      destruct (Rlt_dec 0 (- 0)); [lra|].
      destruct (Rlt_dec (- 0) 0); [lra|].
      destruct (Rlt_dec 0 y).
      * destruct (Rlt_dec 0 (- y)); [lra|].
        destruct (Rlt_dec (- y) 0); [|lra]. right. lra.
      * destruct (Rlt_dec y 0).
        -- destruct (Rlt_dec 0 (- y)); [|lra]. left. lra.
        -- exfalso. destruct Hnz; lra.
Qed.

(** ** The rotation preserves the norm *)

Lemma rotation_norm_sq (xo yo co so ci si cO sO : R) :
  so * so + co * co = 1 ->
  si * si + ci * ci = 1 ->
  sO * sO + cO * cO = 1 ->
  let x := (co * cO - so * sO * ci) * xo + (- so * cO - co * sO * ci) * yo in
  let y := (co * sO + so * cO * ci) * xo + (- so * sO + co * cO * ci) * yo in
  let z := so * si * xo + co * si * yo in
  x * x + y * y + z * z = xo * xo + yo * yo.
Proof.
  intros Ho Hi HO. cbv zeta.
  set (u := co * xo - so * yo).
  set (v := so * xo + co * yo).
  transitivity ((sO * sO + cO * cO) * (u * u)
                + (sO * sO + cO * cO) * (ci * ci) * (v * v)
                + (si * si) * (v * v)).
  { unfold u, v. ring. }
  rewrite HO.
  transitivity (u * u + (si * si + ci * ci) * (v * v)); [ring|].
  rewrite Hi.
  transitivity ((so * so + co * co) * (xo * xo + yo * yo)); [unfold u, v; ring|].
  rewrite Ho. ring.
Qed.

Lemma position_norm_sq (t a e P i Om om : R) :
  let v := calculateOrbitalPosition t a e P i Om om in
  THREE.x v * THREE.x v + THREE.y v * THREE.y v + THREE.z v * THREE.z v =
  distanceAt t a e P * distanceAt t a e P.
Proof.
  cbv zeta. rewrite calculateOrbitalPosition_real. cbv zeta.
  cbn [THREE.x THREE.y THREE.z].
  rewrite (rotation_norm_sq _ _ _ _ _ _ _ _ (sin_cos_sq _) (sin_cos_sq _) (sin_cos_sq _)).
  set (r := distanceAt t a e P). set (nu := trueAnomalyAt t e P).
  transitivity (r * r * (sin nu * sin nu + cos nu * cos nu)); [ring|].
  rewrite sin_cos_sq. ring.
Qed.

Lemma distance_pos (a e nu : R) :
  0 < a -> 0 <= e < 1 -> 0 < distance a e nu.
Proof.
  intros Ha He. unfold distance. cbn.
  pose proof (COS_bound nu) as [Hc _].
  assert (0 < 1 - e * e) by nra.
  apply Rdiv_lt_0_compat; [apply Rmult_lt_0_compat; assumption | nra].
Qed.

Lemma position_length (t a e P i Om om : R) :
  0 < a -> 0 <= e < 1 ->
  THREE.length (calculateOrbitalPosition t a e P i Om om) = distanceAt t a e P.
Proof.
  intros Ha He. unfold THREE.length.
  rewrite position_norm_sq. apply sqrt_square.
  apply Rlt_le, distance_pos; assumption.
Qed.

(** The orientation matrix is orthogonal. *)
Lemma orientation_orthogonal (i Om om : R) :
  Reference.mat_mul (Reference.transpose (Reference.orientation i Om om))
                    (Reference.orientation i Om om) = Reference.identity.
Proof.
  unfold Reference.orientation, Reference.R_z, Reference.R_x.
  pose proof (sin_cos_sq (Reference.radians om)) as Ho.
  pose proof (sin_cos_sq (Reference.radians i)) as Hi.
  pose proof (sin_cos_sq (Reference.radians Om)) as HO.
  revert Ho Hi HO.
  generalize (cos (Reference.radians om)) (sin (Reference.radians om))
             (cos (Reference.radians i)) (sin (Reference.radians i))
             (cos (Reference.radians Om)) (sin (Reference.radians Om)).
  intros co so ci si cO sO Ho Hi HO.
  cbv [Reference.mat_mul Reference.transpose Reference.dot Reference.identity
       Reference.column_x Reference.column_y Reference.column_z
       THREE.x THREE.y THREE.z].
  f_equal; f_equal; nsatz.
Qed.

(** ** C9: the distance from the origin is the in-plane radius *)

(** C9. For every time and valid elements ([a > 0], [e] in [[0,1)],
    [P > 0]) the Euclidean norm of [calculateOrbitalPosition] is the
    in-plane radius [a (1 - e^2) / (1 + e cos nu)] at the true anomaly
    [nu] of that time, whatever the three orientation angles: the final
    step applies the matrix [R_z(Omega) R_x(i) R_z(omega)], which is
    orthogonal, so changing an orientation angle never changes the
    distance from the origin. *)
Theorem position_norm_is_radius (t a e P i Om om : R) :
  0 < a -> 0 <= e < 1 -> 0 < P ->
  let nu := trueAnomalyAt t e P in
  let r := a * (1 - e * e) / (1 + e * cos nu) in
  THREE.length (calculateOrbitalPosition t a e P i Om om) = r /\
  (forall i' Om' om',
      THREE.length (calculateOrbitalPosition t a e P i' Om' om') =
      THREE.length (calculateOrbitalPosition t a e P i Om om)) /\
  calculateOrbitalPosition t a e P i Om om =
    Reference.mat_vec (Reference.orientation i Om om)
      (THREE.mkVector3 (r * cos nu) (r * sin nu) 0) /\
  Reference.mat_mul (Reference.transpose (Reference.orientation i Om om))
                    (Reference.orientation i Om om) = Reference.identity.
Proof.
  intros Ha He HP nu r.
  assert (Hr : distanceAt t a e P = r) by reflexivity.
  split; [|split; [|split]].
  - rewrite position_length by assumption. exact Hr.
  - intros i' Om' om'. now rewrite !position_length by assumption.
  - rewrite calculateOrbitalPosition_real. cbv zeta.
    rewrite rotation_reference. reflexivity.
  - apply orientation_orthogonal.
Qed.

Lemma position_norm_is_radius_witness :
  let nu := trueAnomalyAt 3 (1/5) 12 in
  let r := 8 * (1 - 1/5 * (1/5)) / (1 + 1/5 * cos nu) in
  THREE.length (calculateOrbitalPosition 3 8 (1/5) 12 15 0 0) = r /\
  (forall i' Om' om',
      THREE.length (calculateOrbitalPosition 3 8 (1/5) 12 i' Om' om') =
      THREE.length (calculateOrbitalPosition 3 8 (1/5) 12 15 0 0)) /\
  calculateOrbitalPosition 3 8 (1/5) 12 15 0 0 =
    Reference.mat_vec (Reference.orientation 15 0 0)
      (THREE.mkVector3 (r * cos nu) (r * sin nu) 0) /\
  Reference.mat_mul (Reference.transpose (Reference.orientation 15 0 0))
                    (Reference.orientation 15 0 0) = Reference.identity.
Proof.
  apply (position_norm_is_radius 3 8 (1/5) 12 15 0 0); lra.
Defined.

(** ** C5: a circular orbit stays at distance [semiMajorAxis] *)

Lemma distance_circular (a nu : R) : distance a 0 nu = a.
Proof. unfold distance. cbn. field; lra. Qed.

(** C5. For eccentricity [0], every time, every [a > 0], every [P > 0]
    and every inclination, longitude of ascending node and argument of
    periapsis, the Euclidean norm of the position is [a]. *)
Theorem circular_orbit_norm (t a P i Om om : R) :
  0 < a -> 0 < P ->
  THREE.length (calculateOrbitalPosition t a 0 P i Om om) = a.
Proof.
  intros Ha HP.
  rewrite position_length by (assumption || lra).
  apply distance_circular.
Qed.

Lemma circular_orbit_norm_witness :
  THREE.length (calculateOrbitalPosition 25 10 0 100 15 45 30) = 10.
Proof.
  apply (circular_orbit_norm 25 10 100 15 45 30); lra.
Defined.

(** ** C4: periodicity *)

Lemma meanAnomaly_shift (t P : R) :
  P <> 0 -> meanAnomaly (t + P) P = meanAnomaly t P + 2 * PI.
Proof. intros HP. unfold meanAnomaly. cbn. field. assumption. Qed.

Lemma kepler_loop_shift (n : nat) (M e x : R) :
  kepler_loop n (M + 2 * PI) e (x + 2 * PI) = kepler_loop n M e x + 2 * PI.
Proof.
  revert x. induction n as [|n IH]; intros x; [reflexivity|].
  cbn [kepler_loop]. cbn [add mul Math_sin RealArith].
  rewrite sin_add_2PI.
  replace (M + 2 * PI + e * sin x) with (M + e * sin x + 2 * PI) by ring.
  apply IH.
Qed.

Lemma eccentricAnomaly_shift (M e : R) :
  eccentricAnomaly (M + 2 * PI) e = eccentricAnomaly M e + 2 * PI.
Proof. unfold eccentricAnomaly. apply kepler_loop_shift. Qed.

(** The two arguments of [atan2] in the true anomaly do not vanish
    together. *)
Lemma trueAnomaly_arguments_nonzero (e E : R) :
  0 <= e < 1 ->
  sqrt (1 - e) * cos (E / 2) <> 0 \/ sqrt (1 + e) * sin (E / 2) <> 0.
Proof.
  intros He.
  assert (H1 : 0 < sqrt (1 - e)) by (apply sqrt_lt_R0; lra).
  assert (H2 : 0 < sqrt (1 + e)) by (apply sqrt_lt_R0; lra).
  pose proof (sin_cos_sq (E / 2)) as Hsc.
  destruct (Req_dec (cos (E / 2)) 0) as [Hc|Hc].
  - right. rewrite Hc in Hsc.
    assert (sin (E / 2) <> 0) by (intros Hs; rewrite Hs in Hsc; lra).
    apply Rmult_integral_contrapositive_currified; lra.
  - left. apply Rmult_integral_contrapositive_currified; lra.
Qed.

Lemma trueAnomaly_shift (e E : R) :
  0 <= e < 1 ->
  trueAnomaly e (E + 2 * PI) = trueAnomaly e E + 2 * PI \/
  trueAnomaly e (E + 2 * PI) = trueAnomaly e E - 2 * PI.
Proof.
  intros He. unfold trueAnomaly.
  cbn [add sub mul div Math_sin Math_cos Math_sqrt Math_atan2 lit RealArith].
  replace ((E + 2 * PI) / 2) with (E / 2 + PI) by field.
  rewrite neg_sin, neg_cos.
  replace (sqrt (1 + e) * - sin (E / 2)) with (- (sqrt (1 + e) * sin (E / 2))) by ring.
  replace (sqrt (1 - e) * - cos (E / 2)) with (- (sqrt (1 - e) * cos (E / 2))) by ring.
  destruct (Ratan2_opp (sqrt (1 + e) * sin (E / 2)) (sqrt (1 - e) * cos (E / 2))
              (trueAnomaly_arguments_nonzero e E He)) as [Hq|Hq];
    rewrite Hq; [left|right]; ring.
Qed.

Lemma trueAnomalyAt_period (t e P : R) :
  0 <= e < 1 -> P <> 0 ->
  cos (trueAnomalyAt (t + P) e P) = cos (trueAnomalyAt t e P) /\
  sin (trueAnomalyAt (t + P) e P) = sin (trueAnomalyAt t e P).
Proof.
  intros He HP. unfold trueAnomalyAt.
  rewrite meanAnomaly_shift by assumption.
  rewrite eccentricAnomaly_shift.
  destruct (trueAnomaly_shift e (eccentricAnomaly (meanAnomaly t P) e) He) as [Hq|Hq];
    rewrite Hq.
  - split; [apply cos_add_2PI | apply sin_add_2PI].
  - split; [apply cos_sub_2PI | apply sin_sub_2PI].
Qed.

Lemma calculateOrbitalPosition_period (t a e P i Om om : R) :
  0 <= e < 1 -> P <> 0 ->
  calculateOrbitalPosition (t + P) a e P i Om om =
  calculateOrbitalPosition t a e P i Om om.
Proof.
  intros He HP.
  rewrite !calculateOrbitalPosition_real. cbv zeta.
  destruct (trueAnomalyAt_period t e P He HP) as [Hc Hs].
  unfold distanceAt, distance.
  cbn [add sub mul div Math_cos lit RealArith].
  rewrite Hc, Hs. reflexivity.
Qed.



(** ** C6: the orbit ring is a closed loop *)

Lemma ring_loop_map (fuel i : nat) (planet : Planet R) (points : list (THREE.Vector3 R)) :
  ring_loop fuel i planet points = points ++ map (ringPoint planet) (seq i fuel).
Proof.
  revert i points. induction fuel as [|fuel IH]; intros i points.
  - cbn. now rewrite app_nil_r.
  - cbn [ring_loop seq map]. rewrite IH, <- app_assoc. reflexivity.
Qed.

Lemma ringPoints_map (planet : Planet R) :
  ringPoints planet = map (ringPoint planet) (seq 0 65).
Proof. unfold ringPoints. now rewrite ring_loop_map. Qed.

Lemma ringPoints_nth (planet : Planet R) (i : nat) :
  (i <= 64)%nat -> nth_error (ringPoints planet) i = Some (ringPoint planet i).
Proof.
  intros Hi. rewrite ringPoints_map, nth_error_map.
  rewrite nth_error_seq.
  destruct (Nat.ltb_spec i 65) as [_|Hge]; [reflexivity | lia].
Qed.

(** A sample of the ring is the position at the phase fraction [i / 64]
    of the reference period [10]. *)
Lemma ringPoint_phase (planet : Planet R) (i : nat) :
  ringPoint planet i =
  calculateOrbitalPosition (IZR (Z.of_nat i) / 64 * 10)
    (semiMajorAxis planet) (eccentricity planet) 10
    (inclination planet) (longitudeOfAscendingNode planet)
    (argumentOfPeriapsis planet).
Proof.
  unfold ringPoint. cbv zeta. f_equal.
  cbn [add sub mul div lit Math_PI RealArith segments Z.of_nat Pos.of_succ_nat
       Pos.succ].
  field. exact PI_neq0.
Qed.

(** C6. For every planet (eccentricity in [[0,1)]) the ring is sampled
    at the phase fractions [0/64, 1/64, ..., 64/64] of the fixed
    reference period [10]; its first point (phase 0) equals its last
    point (phase 1); and what [OrbitRing] renders does not depend on the
    clock or on the [time] entry (speed, paused) of the configuration. *)
Theorem orbit_ring_closed (planet : Planet R) :
  0 <= eccentricity planet < 1 ->
  List.length (ringPoints planet) = 65%nat /\
  (forall i, (i <= 64)%nat ->
     nth_error (ringPoints planet) i =
     Some (calculateOrbitalPosition (IZR (Z.of_nat i) / 64 * 10)
             (semiMajorAxis planet) (eccentricity planet) 10
             (inclination planet) (longitudeOfAscendingNode planet)
             (argumentOfPeriapsis planet))) /\
  (exists p, nth_error (ringPoints planet) 0 = Some p /\
             nth_error (ringPoints planet) 64 = Some p) /\
  (forall (config : SolarSystemConfig R) (tc : TimeConfig R) (time time' : R),
     fst (fst (renderPlanet (updateConfig_time config tc) time' planet)) =
     fst (fst (renderPlanet config time planet))).
Proof.
  intros He. split; [|split; [|split]].
  - rewrite ringPoints_map, length_map, length_seq. reflexivity.
  - intros i Hi. rewrite ringPoints_nth by assumption.
    now rewrite ringPoint_phase.
  - exists (ringPoint planet 0).
    rewrite !ringPoints_nth by lia. split; [reflexivity|].
    apply f_equal. rewrite !ringPoint_phase.
    replace (IZR (Z.of_nat 64) / 64 * 10) with (IZR (Z.of_nat 0) / 64 * 10 + 10)
      by (cbn; field).
    apply calculateOrbitalPosition_period; [assumption | lra].
  - intros config tc time time'. unfold renderPlanet. cbn [fst].
    unfold OrbitRing, updateConfig_time. cbn [render]. reflexivity.
Qed.

Lemma orbit_ring_closed_witness :
  List.length (ringPoints mercury) = 65%nat /\
  (forall i, (i <= 64)%nat ->
     nth_error (ringPoints mercury) i =
     Some (calculateOrbitalPosition (IZR (Z.of_nat i) / 64 * 10)
             (semiMajorAxis mercury) (eccentricity mercury) 10
             (inclination mercury) (longitudeOfAscendingNode mercury)
             (argumentOfPeriapsis mercury))) /\
  (exists p, nth_error (ringPoints mercury) 0 = Some p /\
             nth_error (ringPoints mercury) 64 = Some p) /\
  (forall (config : SolarSystemConfig R) (tc : TimeConfig R) (time time' : R),
     fst (fst (renderPlanet (updateConfig_time config tc) time' mercury)) =
     fst (fst (renderPlanet config time mercury))).
Proof.
  apply (orbit_ring_closed mercury). cbn. lra.
Defined.

(** ** C7: the simulation clock never runs backwards *)

Lemma step_speed_pos (s : Scene R) (ev : Event R) :
  validEvent ev ->
  0 < speed (time (config s)) ->
  0 < speed (time (config (step s ev))).
Proof. destruct ev; cbn; intros Hv Hs; lra || assumption. Qed.

Lemma run_speed_pos (evs : list (Event R)) (s : Scene R) :
  Forall validEvent evs ->
  0 < speed (time (config s)) ->
  0 < speed (time (config (run s evs))).
Proof.
  revert s. induction evs as [|ev evs IH]; intros s Hv Hs; [exact Hs|].
  inversion Hv; subst. cbn. apply IH; [assumption|].
  apply step_speed_pos; assumption.
Qed.

Lemma step_clock_le (s : Scene R) (ev : Event R) :
  validEvent ev ->
  0 < speed (time (config s)) ->
  clock s <= clock (step s ev).
Proof.
  destruct ev; cbn; intros Hv Hs; try lra.
  unfold useFrame_tick. destruct (paused (time (config s))); cbn; nra.
Qed.

Lemma run_clock_le (evs : list (Event R)) (s : Scene R) :
  Forall validEvent evs ->
  0 < speed (time (config s)) ->
  clock s <= clock (run s evs).
Proof.
  revert s. induction evs as [|ev evs IH]; intros s Hv Hs; [cbn; lra|].
  inversion Hv; subst. cbn.
  apply Rle_trans with (clock (step s ev)).
  - apply step_clock_le; assumption.
  - apply IH; [assumption | apply step_speed_pos; assumption].
Qed.

Lemma initialScene_speed_pos : 0 < speed (time (config (@initialScene R _))).
Proof. cbn. lra. Qed.

(** C7. On a tick with [delta >= 0] and [speed > 0] the clock becomes
    [time + delta * speed] when not paused and is unchanged when paused;
    and along every sequence of frames and control operations from the
    initial scene the clock never decreases (the code has no operation
    that resets it). *)
Theorem clock_monotone :
  (forall (config : SolarSystemConfig R) (delta prev : R),
      0 <= delta -> 0 < speed (time config) ->
      useFrame_tick config delta prev =
        (if paused (time config) then prev else prev + delta * speed (time config)) /\
      prev <= useFrame_tick config delta prev) /\
  (forall evs evs' : list (Event R),
      Forall validEvent evs -> Forall validEvent evs' ->
      clock (run initialScene evs) <= clock (run initialScene (evs ++ evs'))) /\
  clock (@initialScene R _) = 0.
Proof.
  split; [|split].
  - intros config delta prev Hd Hs. unfold useFrame_tick.
    destruct (paused (time config)); cbn; split; try reflexivity; nra.
  - intros evs evs' Hv Hv'. unfold run. rewrite fold_left_app.
    apply run_clock_le; [assumption|].
    apply run_speed_pos; [assumption | exact initialScene_speed_pos].
  - reflexivity.
Qed.

Lemma clock_monotone_witness :
  clock (run (@initialScene R _) [Frame 1; PlayPauseButton; Frame 1]) <=
  clock (run (@initialScene R _)
           ([Frame 1; PlayPauseButton; Frame 1] ++
            [SpeedSlider 5; PlayPauseButton; Frame 2])).
Proof.
  apply (proj1 (proj2 clock_monotone)); repeat constructor; cbn; lra.
Defined.

(** ** The trail *)

Lemma IZR_of_nat_S (j : nat) : IZR (Z.of_nat (S j)) = IZR (Z.of_nat j) + 1.
Proof. rewrite Nat2Z.inj_succ, succ_IZR. reflexivity. Qed.

Lemma IZR_of_nat_nonneg (j : nat) : 0 <= IZR (Z.of_nat j).
Proof. apply IZR_le. lia. Qed.

Lemma IZR_of_nat_le (i j : nat) : (i <= j)%nat -> IZR (Z.of_nat i) <= IZR (Z.of_nat j).
Proof. intros. apply IZR_le. lia. Qed.

Lemma IZR_of_nat_lt (i j : nat) : (i < j)%nat -> IZR (Z.of_nat i) < IZR (Z.of_nat j).
Proof. intros. apply IZR_lt. lia. Qed.

(** A step of one degree of phase takes [P / 360]. *)
Lemma trailTime_real (planet : Planet R) (time : R) (i : nat) :
  trailTime planet time i = time - IZR (Z.of_nat i) * orbitalPeriod planet / 360.
Proof.
  unfold trailTime, maxAngleRadians, maxAngleDegrees, numSegments. cbv zeta.
  cbn [add sub mul div lit Math_PI RealArith].
  change (IZR (Z.of_nat 60)) with 60.
  field. exact PI_neq0.
Qed.

Lemma lookBack_real (planet : Planet R) (angle : R) :
  lookBack planet angle = angle * orbitalPeriod planet / 360.
Proof. unfold lookBack. field. exact PI_neq0. Qed.

Lemma trailOpacity_real (i : nat) :
  (i <= 60)%nat -> trailOpacity i = 1 - IZR (Z.of_nat i) / 60.
Proof.
  intros Hi. unfold trailOpacity, numSegments.
  cbn [sub div lit Math_max RealArith].
  change (IZR (Z.of_nat 60)) with 60.
  apply Rmax_right.
  pose proof (IZR_of_nat_le i 60 Hi) as Hle.
  change (IZR (Z.of_nat 60)) with 60 in Hle. lra.
Qed.

Lemma trailOpacity_antitone (j : nat) : trailOpacity (S j) <= trailOpacity j.
Proof.
  unfold trailOpacity, numSegments.
  cbn [sub div lit Math_max RealArith].
  change (IZR (Z.of_nat 60)) with 60.
  rewrite IZR_of_nat_S.
  apply Rle_max_compat_l. lra.
Qed.

Lemma kept_spec (planet : Planet R) (time : R) (i : nat) :
  kept planet time i = true <-> 0 <= trailTime planet time i.
Proof.
  unfold kept. cbn [lt lit RealArith]. unfold Rltb.
  destruct (Rlt_dec (trailTime planet time i) 0); cbn [negb]; split; intros;
    try reflexivity; try discriminate; try lra; exfalso; lra.
Qed.

Lemma kept_false_spec (planet : Planet R) (time : R) (i : nat) :
  kept planet time i = false <-> trailTime planet time i < 0.
Proof.
  unfold kept. cbn [lt lit RealArith]. unfold Rltb.
  destruct (Rlt_dec (trailTime planet time i) 0); cbn [negb]; split; intros;
    try reflexivity; try discriminate; try lra; exfalso; lra.
Qed.

Lemma kept_antitone (planet : Planet R) (time : R) (j : nat) :
  0 < orbitalPeriod planet ->
  kept planet time (S j) = true -> kept planet time j = true.
Proof.
  intros HP. rewrite !kept_spec, !trailTime_real, IZR_of_nat_S. nra.
Qed.

(** The loop pushes, in order, the segments of the iterations it keeps. *)
Lemma trail_loop_filter (fuel i : nat) (planet : Planet R) (time : R)
    (acc : list (TrailSegment R)) :
  trail_loop fuel i planet time acc =
  acc ++ map (segmentAt planet time) (filter (kept planet time) (seq i fuel)).
Proof.
  revert i acc. induction fuel as [|fuel IH]; intros i acc.
  - cbn. now rewrite app_nil_r.
  - cbn [trail_loop seq filter]. cbv zeta.
    assert (Hk : kept planet time i = negb (trailTime planet time i <? lit 0)%js)
      by reflexivity.
    rewrite Hk.
    destruct (trailTime planet time i <? lit 0)%js; cbn [negb].
    + apply IH.
    + rewrite IH, <- app_assoc. reflexivity.
Qed.

Lemma keep_false_upward (keep : nat -> bool) :
  (forall j, keep (S j) = true -> keep j = true) ->
  forall j k, (j <= k)%nat -> keep j = false -> keep k = false.
Proof.
  intros Hdown j k Hjk Hj. induction Hjk as [|k Hjk IH]; [assumption|].
  destruct (keep (S k)) eqn:Hk; [|reflexivity].
  apply Hdown in Hk. congruence.
Qed.

(** The indices of [0 .. n-1] that satisfy a predicate closed downwards
    are an initial segment. *)
Lemma filter_seq_prefix (keep : nat -> bool) (n : nat) :
  (forall j, keep (S j) = true -> keep j = true) ->
  exists m, (m <= n)%nat /\
            filter keep (seq 0 n) = seq 0 m /\
            (forall j, (j < m)%nat -> keep j = true) /\
            ((m < n)%nat -> keep m = false).
Proof.
  intros Hdown.
  pose proof (keep_false_upward keep Hdown) as Hup.
  induction n as [|n (m & Hmn & Hf & Hlt & Hstop)].
  - exists 0%nat. split; [lia|]. split; [reflexivity|]. split; intros; lia.
  - rewrite seq_S, filter_app, Hf. cbn [Nat.add filter].
    destruct (Nat.eq_dec m n) as [->|Hne].
    + destruct (keep n) eqn:Hn.
      * exists (S n). split; [lia|]. split; [now rewrite seq_S|].
        split; [|lia]. intros j Hj.
        destruct (Nat.eq_dec j n) as [->|]; [assumption | apply Hlt; lia].
      * exists n. split; [lia|]. split; [now rewrite app_nil_r|].
        split; [assumption | intros _; assumption].
    + assert (Hm : keep m = false) by (apply Hstop; lia).
      rewrite (Hup m n) by (lia || assumption).
      exists m. split; [lia|]. split; [now rewrite app_nil_r|].
      split; [assumption | intros _; assumption].
Qed.

(** The generated trail is the run of the first [N] iterations, where [N]
    is the number of look-back times that are not negative. *)
Lemma generatedSegments_prefix (planet : Planet R) (time : R) :
  0 < orbitalPeriod planet ->
  let N := List.length (generatedSegments planet time) in
  (N <= 60)%nat /\
  generatedSegments planet time = map (segmentAt planet time) (seq 0 N) /\
  (forall j, (j < N)%nat -> 0 <= trailTime planet time j) /\
  (forall j, (N <= j < 60)%nat -> trailTime planet time j < 0).
Proof.
  intros HP.
  pose proof (fun j => kept_antitone planet time j HP) as Hdown.
  destruct (filter_seq_prefix (kept planet time) 60 Hdown)
    as (m & Hm & Hf & Hlt & Hstop).
  assert (Hgen : generatedSegments planet time = map (segmentAt planet time) (seq 0 m)).
  { unfold generatedSegments, numSegments. rewrite trail_loop_filter, Hf. reflexivity. }
  assert (HN : List.length (generatedSegments planet time) = m)
    by (rewrite Hgen, length_map, length_seq; reflexivity).
  cbv zeta. rewrite HN.
  split; [assumption|]. split; [assumption|]. split.
  - intros j Hj. apply kept_spec, Hlt, Hj.
  - intros j [Hj Hj60]. apply kept_false_spec.
    apply (keep_false_upward _ Hdown m j Hj). apply Hstop. lia.
Qed.

(** The number of segments, from the clock. *)
Lemma generatedSegments_count (planet : Planet R) (time : R) :
  0 < orbitalPeriod planet -> 0 <= time ->
  let N := List.length (generatedSegments planet time) in
  (1 <= N <= 60)%nat /\
  (forall j, (j < 60)%nat -> (j < N)%nat <-> lookBack planet (IZR (Z.of_nat j)) <= time).
Proof.
  intros HP Ht.
  destruct (generatedSegments_prefix planet time HP) as (HN & _ & Hin & Hout).
  cbv zeta. split.
  - split; [|assumption].
    destruct (List.length (generatedSegments planet time)) as [|n]; [|lia].
    exfalso. specialize (Hout 0%nat ltac:(lia)).
    rewrite trailTime_real in Hout. cbn in Hout. lra.
  - intros j Hj. rewrite lookBack_real. split.
    + intros HjN. specialize (Hin j HjN). rewrite trailTime_real in Hin. lra.
    + intros Hle.
      destruct (Nat.lt_ge_cases j (List.length (generatedSegments planet time)))
        as [Hlt|Hge]; [assumption|].
      specialize (Hout j (conj Hge Hj)). rewrite trailTime_real in Hout. lra.
Qed.

Lemma generatedSegments_nth (planet : Planet R) (time : R) (j : nat) :
  0 < orbitalPeriod planet ->
  (j < List.length (generatedSegments planet time))%nat ->
  nth_error (generatedSegments planet time) j = Some (segmentAt planet time j).
Proof.
  intros HP Hj.
  destruct (generatedSegments_prefix planet time HP) as (_ & Hgen & _).
  rewrite Hgen at 1. rewrite nth_error_map, nth_error_seq.
  destruct (Nat.ltb_spec j (List.length (generatedSegments planet time)));
    [reflexivity | lia].
Qed.

Lemma nonIncreasing_opacities (n i : nat) :
  nonIncreasing (map trailOpacity (seq i n)).
Proof.
  revert i. induction n as [|n IH]; intros i; [exact I|].
  destruct n as [|n]; [exact I|].
  specialize (IH (S i)). cbn [seq map] in IH |- *. cbn [nonIncreasing].
  split; [apply trailOpacity_antitone | exact IH].
Qed.

Lemma opacities_generated (planet : Planet R) (time : R) :
  0 < orbitalPeriod planet ->
  map opacity (generatedSegments planet time) =
  map trailOpacity (seq 0 (List.length (generatedSegments planet time))).
Proof.
  intros HP.
  destruct (generatedSegments_prefix planet time HP) as (_ & Hgen & _).
  rewrite Hgen at 1. rewrite map_map. reflexivity.
Qed.

(** ** C3: the opacity of the trail *)

(** C3, as amended. For a valid planet and a clock [time >= 0] the trail
    has [N] segments, [1 <= N <= 60]; from the newest to the oldest their
    opacities never increase; the newest has opacity [1]; the oldest has
    opacity [1 - (N - 1) / 60], which is at least [1/60]: it is never [0]. *)
Theorem trail_opacity_fades (planet : Planet R) (time : R) :
  validElements planet -> 0 <= time ->
  let ops := map opacity (generatedSegments planet time) in
  let N := List.length ops in
  (1 <= N <= 60)%nat /\
  nonIncreasing ops /\
  nth_error ops 0 = Some 1 /\
  nth_error ops (N - 1) = Some (1 - IZR (Z.of_nat (N - 1)) / 60) /\
  1 / 60 <= 1 - IZR (Z.of_nat (N - 1)) / 60.
Proof.
  intros (_ & _ & HP) Ht. cbv zeta.
  destruct (generatedSegments_count planet time HP Ht) as (HN & _).
  rewrite length_map.
  set (N := List.length (generatedSegments planet time)) in *.
  rewrite opacities_generated by assumption. fold N.
  split; [assumption|]. split; [apply nonIncreasing_opacities|].
  assert (Hnth : forall j, (j < N)%nat ->
            nth_error (map trailOpacity (seq 0 N)) j = Some (1 - IZR (Z.of_nat j) / 60)).
  { intros j Hj. rewrite nth_error_map, nth_error_seq.
    destruct (Nat.ltb_spec j N); [|lia]. cbn [option_map Nat.add].
    now rewrite trailOpacity_real by lia. }
  split; [|split].
  - rewrite Hnth by lia. cbn. apply f_equal. lra.
  - apply Hnth. lia.
  - pose proof (IZR_of_nat_le (N - 1) 59 ltac:(lia)) as Hle.
    change (IZR (Z.of_nat 59)) with 59 in Hle. lra.
Qed.

Lemma mercury_valid : validElements mercury.
Proof. unfold validElements. cbn. lra. Qed.

Lemma trail_opacity_fades_witness :
  let ops := map opacity (generatedSegments mercury 100) in
  let N := List.length ops in
  (1 <= N <= 60)%nat /\
  nonIncreasing ops /\
  nth_error ops 0 = Some 1 /\
  nth_error ops (N - 1) = Some (1 - IZR (Z.of_nat (N - 1)) / 60) /\
  1 / 60 <= 1 - IZR (Z.of_nat (N - 1)) / 60.
Proof.
  apply (trail_opacity_fades mercury 100); [exact mercury_valid | lra].
Defined.

Lemma full_trail_length (planet : Planet R) (time : R) :
  0 < orbitalPeriod planet -> 0 <= time ->
  59 * orbitalPeriod planet / 360 <= time ->
  List.length (generatedSegments planet time) = 60%nat.
Proof.
  intros HP Ht Hfull.
  destruct (generatedSegments_count planet time HP Ht) as (HN & Hiff).
  assert (59 < List.length (generatedSegments planet time))%nat; [|lia].
  apply Hiff; [lia|]. rewrite lookBack_real.
  change (IZR (Z.of_nat 59)) with 59. exact Hfull.
Qed.

(** The claim fails on the full trail of Mercury at [time = 100]: it has
    sixty segments and the oldest, of index 59, has opacity [1/60], not
    [0]. *)
Lemma full_trail_oldest_opacity_not_zero :
  let ops := map opacity (generatedSegments mercury 100) in
  List.length ops = 60%nat /\
  nth_error ops 59 = Some (1 / 60) /\
  ~ (nonIncreasing ops /\ nth_error ops 0 = Some 1 /\ nth_error ops 59 = Some 0).
Proof.
  cbv zeta.
  assert (HP : 0 < orbitalPeriod mercury) by (cbn; lra).
  assert (Hlen : List.length (generatedSegments mercury 100) = 60%nat)
    by (apply full_trail_length; cbn; lra).
  assert (Hnth : nth_error (map opacity (generatedSegments mercury 100)) 59 = Some (1 / 60)).
  { rewrite nth_error_map, generatedSegments_nth by (assumption || lia).
    cbn [option_map segmentAt opacity]. apply f_equal.
    rewrite trailOpacity_real by lia. change (IZR (Z.of_nat 59)) with 59. lra. }
  split; [now rewrite length_map|]. split; [exact Hnth|].
  intros (_ & _ & H0). rewrite Hnth in H0. injection H0. lra.
Qed.

(** ** C10: the trail never looks back before the start of the clock *)

Lemma Trail_hidden (config : SolarSystemConfig R) (planet : Planet R) (time : R) :
  (List.length (generatedSegments planet time) < 2)%nat ->
  Trail config planet time = None.
Proof.
  intros HN. unfold Trail, trailSegments. cbv zeta.
  destruct (showTrails (render config)); cbn [negb orb]; [|reflexivity].
  rewrite length_rev.
  destruct (Nat.ltb_spec (List.length (generatedSegments planet time)) 2);
    [reflexivity | lia].
Qed.

Lemma Trail_oldest_line (config : SolarSystemConfig R) (planet : Planet R)
    (time : R) (k : nat) :
  0 < orbitalPeriod planet ->
  showTrails (render config) = true ->
  List.length (generatedSegments planet time) = S (S k) ->
  exists rest,
    Trail config planet time =
    Some ({| points := (position (segmentAt planet time (S k)),
                        position (segmentAt planet time k));
             lineOpacity := (trailOpacity (S k) + trailOpacity k) / 2 * 1 |} :: rest).
Proof.
  intros HP Hshow HN.
  destruct (generatedSegments_prefix planet time HP) as (_ & Hgen & _).
  rewrite HN in Hgen.
  unfold Trail, trailSegments. cbv zeta.
  rewrite Hshow. cbn [negb orb]. rewrite length_rev, HN. cbn [Nat.ltb Nat.leb].
  rewrite Hgen, !seq_S, !map_app, !rev_app_distr.
  cbn [Nat.add map rev app trailLines].
  eexists. reflexivity.
Qed.

(** C10, as amended. For a valid planet and a clock [time >= 0]: the
    trail is made of the samples of the iterations [0 .. N-1]; their
    times lie in [[0, time]]; the later iterations have a negative time
    and are skipped; the trail has fewer than 60 points exactly when
    [time] is smaller than the look-back of the oldest candidate, 59
    degrees of phase; at [time = 0] it has one point; with fewer than two
    points nothing is rendered; and in a truncated trail the oldest point
    has an opacity above [1/60] and the oldest rendered line an opacity
    above [1/40], the values on the full trail. *)
Theorem trail_within_clock (config : SolarSystemConfig R) (planet : Planet R) (time : R) :
  validElements planet -> 0 <= time ->
  let gen := generatedSegments planet time in
  let N := List.length gen in
  gen = map (segmentAt planet time) (seq 0 N) /\
  (forall i, (i < N)%nat -> 0 <= trailTime planet time i <= time) /\
  (forall i, (N <= i < 60)%nat -> trailTime planet time i < 0) /\
  (1 <= N <= 60)%nat /\
  ((N < 60)%nat <-> time < lookBack planet 59) /\
  (time = 0 -> N = 1%nat) /\
  ((N < 2)%nat -> Trail config planet time = None) /\
  (exists oldest, nth_error gen (N - 1) = Some oldest /\
                  ((N < 60)%nat -> 1 / 60 < opacity oldest) /\
                  (N = 60%nat -> opacity oldest = 1 / 60)) /\
  (showTrails (render config) = true -> (2 <= N)%nat ->
   exists o, oldestLineOpacity (Trail config planet time) = Some o /\
             ((N < 60)%nat -> 1 / 40 < o) /\
             (N = 60%nat -> o = 1 / 40)).
Proof.
  intros (_ & _ & HP) Ht. cbv zeta.
  destruct (generatedSegments_prefix planet time HP) as (_ & Hgen & Hin & Hout).
  destruct (generatedSegments_count planet time HP Ht) as (HN & Hiff).
  set (N := List.length (generatedSegments planet time)) in *.
  split; [exact Hgen|]. split; [|split; [exact Hout|]]. 
  { intros i Hi. split; [apply Hin, Hi|].
    rewrite trailTime_real. pose proof (IZR_of_nat_nonneg i). nra. }
  split; [exact HN|]. split; [|split; [|split; [|split]]].
  - specialize (Hiff 59%nat ltac:(lia)).
    change (IZR (Z.of_nat 59)) with 59 in Hiff. split.
    + intros HlN. apply Rnot_le_lt. intros Hle. apply Hiff in Hle. lia.
    + intros Hlt. destruct (Nat.lt_ge_cases N 60) as [|Hge]; [assumption|].
      assert (H59 : (59 < N)%nat) by lia. apply Hiff in H59. lra.
  - intros ->. destruct (Nat.lt_ge_cases 1 N) as [H1|]; [|lia].
    apply Hiff in H1; [|lia]. rewrite lookBack_real in H1. cbn in H1. lra.
  - apply Trail_hidden.
  - exists (segmentAt planet time (N - 1)).
    split; [apply generatedSegments_nth; [assumption | fold N; lia]|].
    cbn [segmentAt opacity]. rewrite trailOpacity_real by lia.
    split.
    + intros HlN. pose proof (IZR_of_nat_lt (N - 1) 59 ltac:(lia)) as Hlt.
      change (IZR (Z.of_nat 59)) with 59 in Hlt. lra.
    + intros ->. change (IZR (Z.of_nat (60 - 1))) with 59. lra.
  - intros Hshow H2.
    destruct N as [|[|k]] eqn:HNk; try lia.
    destruct (Trail_oldest_line config planet time k HP Hshow HNk) as (rest & ->).
    cbn [oldestLineOpacity lineOpacity].
    eexists. split; [reflexivity|].
    rewrite !trailOpacity_real by lia. rewrite IZR_of_nat_S.
    split.
    + intros HlN. pose proof (IZR_of_nat_lt k 58 ltac:(lia)) as Hlt.
      change (IZR (Z.of_nat 58)) with 58 in Hlt. lra.
    + intros Heq. assert (k = 58%nat) as -> by lia.
      change (IZR (Z.of_nat 58)) with 58. lra.
Qed.

Lemma trail_within_clock_witness :
  let gen := generatedSegments mercury 1 in
  let N := List.length gen in
  gen = map (segmentAt mercury 1) (seq 0 N) /\
  (forall i, (i < N)%nat -> 0 <= trailTime mercury 1 i <= 1) /\
  (forall i, (N <= i < 60)%nat -> trailTime mercury 1 i < 0) /\
  (1 <= N <= 60)%nat /\
  ((N < 60)%nat <-> 1 < lookBack mercury 59) /\
  (1 = 0 -> N = 1%nat) /\
  ((N < 2)%nat -> Trail defaultConfig mercury 1 = None) /\
  (exists oldest, nth_error gen (N - 1) = Some oldest /\
                  ((N < 60)%nat -> 1 / 60 < opacity oldest) /\
                  (N = 60%nat -> opacity oldest = 1 / 60)) /\
  (showTrails (render (@defaultConfig R _)) = true -> (2 <= N)%nat ->
   exists o, oldestLineOpacity (Trail defaultConfig mercury 1) = Some o /\
             ((N < 60)%nat -> 1 / 40 < o) /\
             (N = 60%nat -> o = 1 / 40)).
Proof.
  apply (trail_within_clock defaultConfig mercury 1); [exact mercury_valid | lra].
Defined.

(** The claim fails for Venus ([orbitalPeriod = 20]) at [time = 3.3]: the
    clock is inside the 60-degree window, which lasts [20 / 6], and yet
    the trail has all its sixty points, because the oldest candidate
    looks back 59 degrees only. *)
Lemma trail_full_inside_window :
  33 / 10 < lookBack venus 60 /\
  List.length (generatedSegments venus (33 / 10)) = 60%nat /\
  ~ (33 / 10 < lookBack venus 60 ->
     (List.length (generatedSegments venus (33 / 10)%R) < 60)%nat).
Proof.
  assert (Hw : 33 / 10 < lookBack venus 60)
    by (rewrite lookBack_real; cbn; lra).
  assert (Hlen : List.length (generatedSegments venus (33 / 10)) = 60%nat)
    by (apply full_trail_length; cbn; lra).
  split; [exact Hw|]. split; [exact Hlen|].
  intros H. specialize (H Hw). lia.
Qed.

(** ** C8: the true anomaly grows with time *)

Lemma sin_abs_le (u : R) : 0 <= u -> - u <= sin u <= u.
Proof.
  intros Hu. pose proof (SIN_bound u) as [Hlo Hhi]. split.
  - destruct (Rle_lt_dec u 1) as [Hsmall|Hbig]; [|lra].
    pose proof (sin_ge_0 u Hu) as Hs. pose proof PI2_1. lra.
  - destruct (Req_dec u 0) as [->|Hnz]; [rewrite sin_0; lra|].
    apply Rlt_le, sin_lt_x. lra.
Qed.

(** The sine is 1-Lipschitz. *)
Lemma sin_lipschitz (x y : R) :
  x <= y -> - (y - x) <= sin y - sin x <= y - x.
Proof.
  intros Hxy. rewrite form4.
  pose proof (COS_bound ((y + x) / 2)) as [Hc1 Hc2].
  pose proof (sin_abs_le ((y - x) / 2) ltac:(lra)) as [Hs1 Hs2].
  set (c := cos ((y + x) / 2)) in *. set (s := sin ((y - x) / 2)) in *.
  split; nra.
Qed.

(** One step of the iteration keeps two runs apart, in order, when the
    eccentricity is below one half. *)
Lemma kepler_loop_increasing (n : nat) (M1 M2 e x1 x2 : R) :
  0 <= e < 1 / 2 -> M1 < M2 ->
  0 < x2 - x1 <= 2 * (M2 - M1) ->
  0 < kepler_loop n M2 e x2 - kepler_loop n M1 e x1 <= 2 * (M2 - M1).
Proof.
  intros He HM. revert x1 x2.
  induction n as [|n IH]; intros x1 x2 Hx; [exact Hx|].
  cbn [kepler_loop]. apply IH.
  cbn [add mul Math_sin RealArith].
  pose proof (sin_lipschitz x1 x2 ltac:(lra)) as [Hs1 Hs2].
  split; nra.
Qed.

Lemma eccentricAnomaly_increasing (M1 M2 e : R) :
  0 <= e < 1 / 2 -> M1 < M2 ->
  eccentricAnomaly M1 e < eccentricAnomaly M2 e.
Proof.
  intros He HM. unfold eccentricAnomaly.
  pose proof (kepler_loop_increasing 5 M1 M2 e M1 M2 He HM ltac:(lra)). lra.
Qed.

Lemma kepler_loop_0 (n : nat) (e : R) : kepler_loop n 0 e 0 = 0.
Proof.
  induction n as [|n IH]; [reflexivity|].
  cbn [kepler_loop]. cbn [add mul Math_sin RealArith].
  rewrite sin_0. replace (0 + e * 0) with 0 by ring. exact IH.
Qed.

Lemma eccentricAnomaly_0 (e : R) : eccentricAnomaly 0 e = 0.
Proof. apply kepler_loop_0. Qed.

Lemma eccentricAnomaly_2PI (e : R) : eccentricAnomaly (2 * PI) e = 2 * PI.
Proof.
  replace (2 * PI) with (0 + 2 * PI) at 1 by ring.
  rewrite eccentricAnomaly_shift, eccentricAnomaly_0. ring.
Qed.

Lemma eccentricAnomaly_range (M e : R) :
  0 <= e < 1 / 2 -> 0 <= M < 2 * PI ->
  0 <= eccentricAnomaly M e < 2 * PI.
Proof.
  intros He [HM0 HM1]. split.
  - destruct (Req_dec M 0) as [->|Hnz]; [rewrite eccentricAnomaly_0; lra|].
    rewrite <- (eccentricAnomaly_0 e) at 1.
    apply Rlt_le, eccentricAnomaly_increasing; [assumption | lra].
  - rewrite <- (eccentricAnomaly_2PI e).
    apply eccentricAnomaly_increasing; assumption.
Qed.

Lemma tan_shift_PI (x : R) : cos x <> 0 -> tan (x - PI) = tan x.
Proof.
  intros Hc. unfold tan.
  rewrite sin_minus, cos_minus, cos_PI, sin_PI.
  field. assumption.
Qed.

(** The half-angle formula, as a function of the half eccentric anomaly
    [th], takes [[0, PI/2)] to [[0, PI/2)], [PI/2] to [PI/2] and
    [(PI/2, PI)] to [(PI/2, PI)]. *)
Lemma half_angle_first (A B th : R) :
  0 < A -> 0 < B -> 0 <= th < PI / 2 ->
  Ratan2 (A * sin th) (B * cos th) = atan (A / B * tan th) /\
  0 <= Ratan2 (A * sin th) (B * cos th) < PI / 2.
Proof.
  intros HA HB [H0 H1].
  assert (Hc : 0 < cos th) by (apply cos_gt_0; lra).
  assert (Hs : 0 <= sin th) by (apply sin_ge_0; lra).
  assert (Hx : 0 < B * cos th) by (apply Rmult_lt_0_compat; assumption).
  assert (Heq : Ratan2 (A * sin th) (B * cos th) = atan (A / B * tan th)).
  { unfold Ratan2. destruct (Rlt_dec 0 (B * cos th)); [|lra].
    f_equal. unfold tan. field. lra. }
  split; [exact Heq|]. rewrite Heq.
  assert (Hz : 0 <= A / B * tan th).
  { unfold tan. apply Rmult_le_pos.
    - apply Rlt_le, Rdiv_lt_0_compat; assumption.
    - apply Rmult_le_pos; [assumption | apply Rlt_le, Rinv_0_lt_compat, Hc]. }
  pose proof (atan_bound (A / B * tan th)) as [_ Hub].
  split; [|exact Hub].
  destruct Hz as [Hz|Hz].
  - rewrite <- atan_0. apply Rlt_le, atan_increasing, Hz.
  - rewrite <- Hz, atan_0. lra.
Qed.

Lemma half_angle_middle (A B : R) :
  0 < A -> 0 < B ->
  Ratan2 (A * sin (PI / 2)) (B * cos (PI / 2)) = PI / 2.
Proof.
  intros HA HB. rewrite sin_PI2, cos_PI2. unfold Ratan2.
  replace (B * 0) with 0 by ring. replace (A * 1) with A by ring.
  destruct (Rlt_dec 0 0); [lra|].
  destruct (Rlt_dec 0 A); [reflexivity | lra].
Qed.

Lemma half_angle_second (A B th : R) :
  0 < A -> 0 < B -> PI / 2 < th < PI ->
  Ratan2 (A * sin th) (B * cos th) = atan (A / B * tan (th - PI)) + PI /\
  PI / 2 < Ratan2 (A * sin th) (B * cos th) < PI.
Proof.
  intros HA HB [H0 H1].
  assert (Hc : cos th < 0) by (apply cos_lt_0; lra).
  assert (Hs : 0 < sin th) by (apply sin_gt_0; lra).
  assert (Hx : B * cos th < 0) by nra.
  assert (Hy : 0 < A * sin th) by (apply Rmult_lt_0_compat; assumption).
  assert (Heq : Ratan2 (A * sin th) (B * cos th) = atan (A / B * tan (th - PI)) + PI).
  { unfold Ratan2. destruct (Rlt_dec 0 (B * cos th)); [lra|].
    destruct (Rlt_dec (B * cos th) 0); [|lra].
    destruct (Rle_dec 0 (A * sin th)); [|lra].
    f_equal. f_equal. rewrite tan_shift_PI by lra. unfold tan. field. lra. }
  split; [exact Heq|]. rewrite Heq.
  assert (Hz : A / B * tan (th - PI) < 0).
  { rewrite tan_shift_PI by lra. unfold tan.
    assert (0 < A / B) by (apply Rdiv_lt_0_compat; assumption).
    assert (sin th / cos th < 0).
    { unfold Rdiv. assert (/ cos th < 0) by (apply Rinv_lt_0_compat, Hc). nra. }
    nra. }
  pose proof (atan_bound (A / B * tan (th - PI))) as [Hlb _].
  pose proof (atan_increasing _ _ Hz) as Hneg. rewrite atan_0 in Hneg.
  lra.
Qed.

Lemma half_angle_increasing (A B th1 th2 : R) :
  0 < A -> 0 < B -> 0 <= th1 -> th1 < th2 -> th2 < PI ->
  Ratan2 (A * sin th1) (B * cos th1) < Ratan2 (A * sin th2) (B * cos th2).
Proof.
  intros HA HB H0 H12 H2.
  assert (HAB : 0 < A / B) by (apply Rdiv_lt_0_compat; assumption).
  destruct (Rlt_le_dec th2 (PI / 2)) as [Hlow2|Hhigh2].
  - (* both below a quarter turn *)
    destruct (half_angle_first A B th1 HA HB ltac:(lra)) as [-> _].
    destruct (half_angle_first A B th2 HA HB ltac:(lra)) as [-> _].
    apply atan_increasing, Rmult_lt_compat_l; [assumption|].
    apply tan_increasing; lra.
  - destruct (Rlt_le_dec th1 (PI / 2)) as [Hlow1|Hhigh1].
    + (* the first below, the second at or above *)
      destruct (half_angle_first A B th1 HA HB ltac:(lra)) as [_ [_ Hb1]].
      destruct Hhigh2 as [Hhigh2|Heq2].
      * destruct (half_angle_second A B th2 HA HB ltac:(lra)) as [_ [Hb2 _]]. lra.
      * rewrite <- Heq2, half_angle_middle by assumption. lra.
    + destruct Hhigh1 as [Hhigh1|Heq1].
      * (* both above a quarter turn *)
        destruct (half_angle_second A B th1 HA HB ltac:(lra)) as [-> _].
        destruct (half_angle_second A B th2 HA HB ltac:(lra)) as [-> _].
        apply Rplus_lt_compat_r, atan_increasing, Rmult_lt_compat_l; [assumption|].
        apply tan_increasing; lra.
      * destruct (half_angle_second A B th2 HA HB ltac:(lra)) as [_ [Hb2 _]].
        rewrite <- Heq1, half_angle_middle by assumption. lra.
Qed.

Lemma trueAnomaly_increasing (e E1 E2 : R) :
  0 <= e < 1 -> 0 <= E1 -> E1 < E2 -> E2 < 2 * PI ->
  trueAnomaly e E1 < trueAnomaly e E2.
Proof.
  intros He H0 H12 H2. unfold trueAnomaly.
  cbn [add sub mul div Math_sin Math_cos Math_sqrt Math_atan2 lit RealArith].
  assert (HA : 0 < sqrt (1 + e)) by (apply sqrt_lt_R0; lra).
  assert (HB : 0 < sqrt (1 - e)) by (apply sqrt_lt_R0; lra).
  pose proof (half_angle_increasing (sqrt (1 + e)) (sqrt (1 - e)) (E1 / 2) (E2 / 2)
                HA HB ltac:(lra) ltac:(lra) ltac:(lra)).
  lra.
Qed.

Lemma meanAnomaly_range (t P : R) :
  0 < P -> 0 <= t < P -> 0 <= meanAnomaly t P < 2 * PI.
Proof.
  intros HP [Ht0 Ht1]. unfold meanAnomaly. cbn [mul div lit Math_PI RealArith].
  pose proof PI_RGT_0 as Hpi.
  assert (Hq : 0 <= t / P < 1).
  { split.
    - apply Rmult_le_pos; [assumption | apply Rlt_le, Rinv_0_lt_compat, HP].
    - apply (Rmult_lt_reg_r P); [assumption|]. unfold Rdiv.
      rewrite Rmult_assoc, Rinv_l by lra. lra. }
  split; nra.
Qed.

Lemma meanAnomaly_increasing (t1 t2 P : R) :
  0 < P -> t1 < t2 -> meanAnomaly t1 P < meanAnomaly t2 P.
Proof.
  intros HP Ht. unfold meanAnomaly. cbn [mul div lit Math_PI RealArith].
  pose proof PI_RGT_0 as Hpi.
  assert (Hq : t1 / P < t2 / P).
  { unfold Rdiv. apply Rmult_lt_compat_r; [apply Rinv_0_lt_compat, HP | exact Ht]. }
  nra.
Qed.

(** C8. For an eccentricity below one half, in particular for
    eccentricity [0], and a period [P > 0], the true anomaly computed
    by [calculateOrbitalPosition] is strictly increasing in the time
    within one period. *)
Theorem trueAnomaly_strictly_increasing (e P t1 t2 : R) :
  0 <= e < 1 / 2 -> 0 < P ->
  0 <= t1 -> t1 < t2 -> t2 < P ->
  trueAnomalyAt t1 e P < trueAnomalyAt t2 e P.
Proof.
  intros He HP Ht0 Ht12 Ht2. unfold trueAnomalyAt.
  pose proof (meanAnomaly_range t1 P HP ltac:(lra)) as HM1.
  pose proof (meanAnomaly_range t2 P HP ltac:(lra)) as HM2.
  pose proof (meanAnomaly_increasing t1 t2 P HP Ht12) as HM.
  pose proof (eccentricAnomaly_range (meanAnomaly t1 P) e He HM1) as HE1.
  pose proof (eccentricAnomaly_range (meanAnomaly t2 P) e He HM2) as HE2.
  apply trueAnomaly_increasing; try lra.
  apply eccentricAnomaly_increasing; assumption.
Qed.

Lemma trueAnomaly_strictly_increasing_witness :
  trueAnomalyAt 3 0 12 < trueAnomalyAt 5 0 12 /\
  trueAnomalyAt 3 (1/5) 12 < trueAnomalyAt 5 (1/5) 12.
Proof.
  split.
  - apply (trueAnomaly_strictly_increasing 0 12 3 5); lra.
  - apply (trueAnomaly_strictly_increasing (1/5) 12 3 5); lra.
Defined.

(** ** C1: no parameter is validated *)

Ltac js_ops :=
  cbn [lit Math_PI add sub mul div neg Math_sin Math_cos Math_sqrt Math_atan2
       Math_max lt SpecialArith].

Lemma sqrt_between (lo hi x : R) :
  0 <= lo -> lo * lo <= x -> x <= hi * hi -> 0 <= hi -> lo <= sqrt x <= hi.
Proof.
  intros Hlo Hx1 Hx2 Hhi. split.
  - rewrite <- (sqrt_square lo) by assumption. apply sqrt_le_1_alt, Hx1.
  - rewrite <- (sqrt_square hi) by assumption. apply sqrt_le_1_alt, Hx2.
Qed.

(** *** [NaN] is absorbing *)

Lemma js_add_NaN_r (a : jsnum) : js_add a NaN = NaN.
Proof. destruct a; reflexivity. Qed.

Lemma js_mul_NaN_r (a : jsnum) : js_mul a NaN = NaN.
Proof. destruct a; reflexivity. Qed.

Lemma js_div_NaN_r (a : jsnum) : js_div a NaN = NaN.
Proof. destruct a; reflexivity. Qed.

Lemma js_atan2_NaN_r (a : jsnum) : js_atan2 a NaN = NaN.
Proof. destruct a; reflexivity. Qed.

(** *** Overflow *)

Lemma overflowThreshold_large : 1000000 < overflowThreshold.
Proof.
  unfold overflowThreshold.
  replace (2 ^ 1024) with (2 ^ 54 * 2 ^ 970).
  - assert (H970 : 2 ^ 20 <= 2 ^ 970) by (apply Rle_pow; [lra | lia]).
    assert (H54 : 2 ^ 5 <= 2 ^ 54) by (apply Rle_pow; [lra | lia]).
    assert (E20 : 2 ^ 20 = 1048576) by (cbn [pow]; lra).
    assert (E5 : 2 ^ 5 = 32) by (cbn [pow]; lra).
    rewrite E20 in H970. rewrite E5 in H54.
    set (p := 2 ^ 54) in *. set (q := 2 ^ 970) in *. nra.
  - rewrite <- pow_add.
    replace (54 + 970)%nat with 1024%nat by reflexivity. reflexivity.
Qed.

Lemma abs_bounds (r b : R) : Rabs r <= b -> - b <= r <= b.
Proof. unfold Rabs. destruct (Rcase_abs r); intros; lra. Qed.

(** An exact result below the threshold is the result. *)
Lemma js_number_fin (r : R) : Rabs r < overflowThreshold -> js_number r = Fin r.
Proof.
  intros Hr. apply Rabs_def2 in Hr. destruct Hr as [H1 H2].
  unfold js_number.
  destruct (Rle_dec overflowThreshold r); [lra|].
  destruct (Rle_dec r (- overflowThreshold)); [lra | reflexivity].
Qed.

(** An exact result from the threshold on is [+Infinity]. *)
Lemma js_number_overflow (r : R) : overflowThreshold <= r -> js_number r = PInf.
Proof.
  intros Hr. unfold js_number.
  destruct (Rle_dec overflowThreshold r); [reflexivity | contradiction].
Qed.

Lemma js_add_fin (r s : R) :
  Rabs (r + s) < overflowThreshold -> js_add (Fin r) (Fin s) = Fin (r + s).
Proof. intros H. cbn [js_add]. apply js_number_fin, H. Qed.

Lemma js_sub_fin (r s : R) :
  Rabs (r - s) < overflowThreshold -> js_sub (Fin r) (Fin s) = Fin (r - s).
Proof.
  intros H. unfold js_sub. cbn [js_neg js_add].
  change (r + - s) with (r - s). apply js_number_fin, H.
Qed.

Lemma js_mul_fin (r s : R) :
  Rabs (r * s) < overflowThreshold -> js_mul (Fin r) (Fin s) = Fin (r * s).
Proof. intros H. cbn [js_mul]. apply js_number_fin, H. Qed.

Lemma js_div_fin (r s : R) :
  s <> 0 -> Rabs (r / s) < overflowThreshold -> js_div (Fin r) (Fin s) = Fin (r / s).
Proof.
  intros Hs H. cbn [js_div].
  destruct (Req_dec_T s 0); [contradiction | apply js_number_fin, H].
Qed.

Lemma js_sqrt_fin (r : R) : 0 <= r -> js_sqrt (Fin r) = Fin (sqrt r).
Proof. intros Hr. cbn. destruct (Rlt_dec r 0); [lra | reflexivity]. Qed.

Lemma js_sqrt_negative (r : R) : r < 0 -> js_sqrt (Fin r) = NaN.
Proof. intros Hr. cbn. destruct (Rlt_dec r 0); [reflexivity | lra]. Qed.

(** The magnitudes that the rotation meets stay in their ranges. *)

Lemma unit_sin (x : R) : unitRange (sin x).
Proof. apply Rabs_le. pose proof (SIN_bound x). lra. Qed.

Lemma unit_cos (x : R) : unitRange (cos x).
Proof. apply Rabs_le. pose proof (COS_bound x). lra. Qed.

Lemma unit_opp (r : R) : unitRange r -> unitRange (- r).
Proof. unfold unitRange. now rewrite Rabs_Ropp. Qed.

Lemma unit_mul (r s : R) : unitRange r -> unitRange s -> unitRange (r * s).
Proof.
  unfold unitRange. intros Hr Hs. rewrite Rabs_mult.
  pose proof (Rabs_pos r). pose proof (Rabs_pos s). nra.
Qed.

Lemma pair_add (r s : R) : unitRange r -> unitRange s -> pairRange (r + s).
Proof.
  unfold unitRange, pairRange. intros Hr Hs.
  apply abs_bounds in Hr. apply abs_bounds in Hs. apply Rabs_le. lra.
Qed.

Lemma pair_sub (r s : R) : unitRange r -> unitRange s -> pairRange (r - s).
Proof.
  unfold unitRange, pairRange. intros Hr Hs.
  apply abs_bounds in Hr. apply abs_bounds in Hs. apply Rabs_le. lra.
Qed.

Lemma eighth_mul_unit (x c : R) : eighthRange x -> unitRange c -> eighthRange (x * c).
Proof.
  unfold unitRange, eighthRange. intros Hx Hc. rewrite Rabs_mult.
  pose proof (Rabs_pos x). pose proof (Rabs_pos c). nra.
Qed.

Lemma quarter_unit_mul (c x : R) : unitRange c -> eighthRange x -> quarterRange (c * x).
Proof.
  unfold unitRange, eighthRange, quarterRange. intros Hc Hx. rewrite Rabs_mult.
  pose proof (Rabs_pos x). pose proof (Rabs_pos c).
  pose proof overflowThreshold_large. nra.
Qed.

Lemma quarter_pair_mul (c x : R) : pairRange c -> eighthRange x -> quarterRange (c * x).
Proof.
  unfold pairRange, eighthRange, quarterRange. intros Hc Hx. rewrite Rabs_mult.
  pose proof (Rabs_pos x). pose proof (Rabs_pos c).
  pose proof overflowThreshold_large. nra.
Qed.

Lemma unit_safe (r : R) : unitRange r -> Rabs r < overflowThreshold.
Proof. unfold unitRange. pose proof overflowThreshold_large. lra. Qed.

Lemma pair_safe (r : R) : pairRange r -> Rabs r < overflowThreshold.
Proof. unfold pairRange. pose proof overflowThreshold_large. lra. Qed.

Lemma eighth_safe (r : R) : eighthRange r -> Rabs r < overflowThreshold.
Proof. unfold eighthRange. pose proof overflowThreshold_large. lra. Qed.

Lemma quarter_safe (r : R) : quarterRange r -> Rabs r < overflowThreshold.
Proof. unfold quarterRange. pose proof overflowThreshold_large. lra. Qed.

Lemma quarter_add_safe (u v : R) :
  quarterRange u -> quarterRange v -> Rabs (u + v) < overflowThreshold.
Proof.
  unfold quarterRange. intros Hu Hv.
  apply abs_bounds in Hu. apply abs_bounds in Hv.
  pose proof overflowThreshold_large. apply Rabs_def1; lra.
Qed.

Create HintDb bounds.
#[local] Hint Resolve unit_sin unit_cos unit_opp unit_mul pair_add pair_sub
  eighth_mul_unit quarter_unit_mul quarter_pair_mul
  unit_safe pair_safe eighth_safe quarter_safe quarter_add_safe : bounds.

Ltac in_range := solve [eauto 40 with bounds].

(** *** Division by zero *)

(** Dividing by a zero period gives an infinity or [NaN], never a finite
    Number. *)
Lemma js_div_zero (a : jsnum) : isFinite (js_div a (Fin 0)) = false.
Proof.
  destruct a as [r| | |]; cbn [js_div]; try reflexivity.
  - destruct (Req_dec_T 0 0) as [_|Hne]; [|contradiction].
    unfold inf_of_sign. destruct (Req_dec_T r 0); [reflexivity|].
    destruct (Rlt_dec 0 r); reflexivity.
  - destruct (Rlt_dec 0 0); reflexivity.
  - destruct (Rlt_dec 0 0); reflexivity.
Qed.

Lemma js_mul_pos_not_finite (a : jsnum) (r : R) :
  0 < r -> isFinite a = false -> isFinite (js_mul a (Fin r)) = false.
Proof.
  intros Hr Ha. destruct a as [s| | |]; cbn [isFinite js_mul] in *;
    try discriminate; try reflexivity.
  - unfold inf_of_sign. destruct (Req_dec_T r 0); [reflexivity|].
    destruct (Rlt_dec 0 r); reflexivity.
  - unfold inf_of_sign. destruct (Req_dec_T (- r) 0); [reflexivity|].
    destruct (Rlt_dec 0 (- r)); reflexivity.
Qed.

Lemma js_sin_not_finite (a : jsnum) : isFinite a = false -> js_sin a = NaN.
Proof. destruct a; cbn; intros; [discriminate | reflexivity ..]. Qed.

(** *** The iteration *)

Lemma kepler_loop_NaN (n : nat) (M e : jsnum) : kepler_loop n M e NaN = NaN.
Proof.
  induction n as [|n IH]; [reflexivity|].
  cbn [kepler_loop]. js_ops. cbn [js_sin].
  rewrite js_mul_NaN_r, js_add_NaN_r. exact IH.
Qed.

Lemma eccentricAnomaly_not_finite (M e : jsnum) :
  isFinite M = false -> eccentricAnomaly M e = NaN.
Proof.
  intros HM. unfold eccentricAnomaly. cbn [kepler_loop]. js_ops.
  rewrite (js_sin_not_finite M HM), js_mul_NaN_r, js_add_NaN_r.
  apply (kepler_loop_NaN 4).
Qed.

(** After the first iteration the iterate is within [1] of the mean
    anomaly. *)
Lemma kepler_loop_near (n : nat) (M e x : R) :
  0 <= e < 1 -> -1 <= kepler_loop (S n) M e x - M <= 1.
Proof.
  intros He. revert x. induction n as [|n IH]; intros x.
  - cbn [kepler_loop]. cbn [add mul Math_sin RealArith].
    pose proof (SIN_bound x). nra.
  - change (kepler_loop (S (S n)) M e x)
      with (kepler_loop (S n) M e (M + e * Math_sin x)%js).
    apply IH.
Qed.

Lemma kepler_loop_fin (n : nat) (M e x : R) :
  0 <= e < 1 -> Rabs M <= overflowThreshold / 2 ->
  kepler_loop n (Fin M) (Fin e) (Fin x) = Fin (kepler_loop n M e x).
Proof.
  intros He HM. apply abs_bounds in HM.
  pose proof overflowThreshold_large as HT.
  revert x. induction n as [|n IH]; intros x; [reflexivity|].
  cbn [kepler_loop]. js_ops. cbn [js_sin].
  pose proof (SIN_bound x) as Hs.
  rewrite js_mul_fin by (apply Rabs_def1; nra).
  rewrite js_add_fin by (apply Rabs_def1; nra).
  apply IH.
Qed.

(** *** The steps on finite Numbers far from the threshold *)

Lemma meanAnomaly_fin (t P : R) :
  P <> 0 -> farFromOverflow (t / P) ->
  meanAnomaly (Fin t) (Fin P) = Fin (meanAnomaly t P) /\
  Rabs (meanAnomaly t P) <= overflowThreshold / 2.
Proof.
  intros HP Hq. unfold farFromOverflow in Hq. apply abs_bounds in Hq.
  pose proof overflowThreshold_large as HT.
  pose proof PI_RGT_0 as Hpi. pose proof PI_4 as Hpi4.
  unfold meanAnomaly. js_ops.
  rewrite js_div_fin by (assumption || (apply Rabs_def1; lra)).
  rewrite js_mul_fin by (apply Rabs_def1; nra).
  rewrite js_mul_fin by (apply Rabs_def1; nra).
  split; [reflexivity|].
  cbn [mul div lit Math_PI RealArith]. apply Rabs_le. nra.
Qed.

Lemma eccentricAnomaly_fin (M e : R) :
  0 <= e < 1 -> Rabs M <= overflowThreshold / 2 ->
  eccentricAnomaly (Fin M) (Fin e) = Fin (eccentricAnomaly M e) /\
  Rabs (eccentricAnomaly M e) <= overflowThreshold / 2 + 1.
Proof.
  intros He HM. split; [apply kepler_loop_fin; assumption|].
  unfold eccentricAnomaly.
  pose proof (kepler_loop_near 4 M e M He) as Hn.
  apply abs_bounds in HM. apply Rabs_le. lra.
Qed.

Lemma Ratan2_bound (y x : R) : - (2 * PI) <= Ratan2 y x <= 2 * PI.
Proof.
  pose proof PI_RGT_0 as Hpi. pose proof (atan_bound (y / x)) as [H1 H2].
  unfold Ratan2.
  destruct (Rlt_dec 0 x); [lra|].
  destruct (Rlt_dec x 0).
  - destruct (Rle_dec 0 y); lra.
  - destruct (Rlt_dec 0 y); [lra|]. destruct (Rlt_dec y 0); lra.
Qed.

Lemma trueAnomaly_fin (e E : R) :
  0 <= e < 1 -> Rabs E <= overflowThreshold / 2 + 1 ->
  trueAnomaly (Fin e) (Fin E) = Fin (trueAnomaly e E).
Proof.
  intros He HE. apply abs_bounds in HE.
  pose proof overflowThreshold_large as HT.
  pose proof PI_RGT_0 as Hpi. pose proof PI_4 as Hpi4.
  unfold trueAnomaly. js_ops.
  rewrite (js_div_fin E 2) by (lra || (apply Rabs_def1; lra)).
  rewrite (js_add_fin 1 e) by (apply Rabs_def1; lra).
  rewrite (js_sub_fin 1 e) by (apply Rabs_def1; lra).
  rewrite (js_sqrt_fin (1 + e)), (js_sqrt_fin (1 - e)) by lra.
  cbn [js_sin js_cos].
  pose proof (sqrt_between 0 2 (1 + e) ltac:(lra) ltac:(lra) ltac:(lra) ltac:(lra)) as HA.
  pose proof (sqrt_between 0 2 (1 - e) ltac:(lra) ltac:(lra) ltac:(lra) ltac:(lra)) as HB.
  pose proof (SIN_bound (E / 2)) as Hs. pose proof (COS_bound (E / 2)) as Hc.
  rewrite (js_mul_fin (sqrt (1 + e))) by (apply Rabs_def1; nra).
  rewrite (js_mul_fin (sqrt (1 - e))) by (apply Rabs_def1; nra).
  cbn [js_atan2].
  pose proof (Ratan2_bound (sqrt (1 + e) * sin (E / 2)) (sqrt (1 - e) * cos (E / 2)))
    as Hat.
  rewrite js_mul_fin by (apply Rabs_def1; lra).
  reflexivity.
Qed.

Lemma distance_fin (a e nu : R) :
  0 <= e < 1 -> farFromOverflow a ->
  distance (Fin a) (Fin e) (Fin nu) = Fin (distance a e nu) /\
  eighthRange (distance a e nu).
Proof.
  intros He Ha. unfold farFromOverflow in Ha. apply abs_bounds in Ha.
  pose proof overflowThreshold_large as HT.
  pose proof (COS_bound nu) as Hc.
  set (N := 1 - e * e). set (D := 1 + e * cos nu).
  assert (HN : 0 <= N <= 1) by (unfold N; nra).
  assert (HD : 0 < D) by (unfold D; nra).
  assert (HND : N <= 2 * D) by (unfold N, D; nra).
  set (k := N / D).
  assert (Hk : 0 <= k <= 2).
  { unfold k. split.
    - apply Rle_mult_inv_pos; lra.
    - apply (Rmult_le_reg_r D); [assumption|].
      unfold Rdiv. rewrite Rmult_assoc, Rinv_l by lra. lra. }
  assert (Hq : a * N / D = a * k) by (unfold k, Rdiv; ring).
  assert (Hr : - (overflowThreshold / 8) <= a * N / D <= overflowThreshold / 8).
  { rewrite Hq. nra. }
  unfold distance. js_ops. cbn [js_cos].
  rewrite (js_mul_fin e e) by (apply Rabs_def1; nra).
  rewrite (js_sub_fin 1 (e * e)) by (apply Rabs_def1; nra).
  rewrite (js_mul_fin a (1 - e * e)) by (fold N; apply Rabs_def1; nra).
  rewrite (js_mul_fin e (cos nu)) by (apply Rabs_def1; nra).
  rewrite (js_add_fin 1 (e * cos nu)) by (apply Rabs_def1; nra).
  fold N D.
  rewrite js_div_fin by (lra || (apply Rabs_def1; lra)).
  split; [reflexivity|].
  cbn [sub mul div add Math_cos lit RealArith]. fold N D.
  unfold eighthRange. apply Rabs_le. lra.
Qed.

Lemma radians_fin (d : R) :
  farFromOverflow d ->
  js_div (js_mul (Fin d) (Fin PI)) (Fin 180) = Fin (d * PI / 180).
Proof.
  intros Hd. unfold farFromOverflow in Hd. apply abs_bounds in Hd.
  pose proof overflowThreshold_large as HT.
  pose proof PI_RGT_0 as Hpi. pose proof PI_4 as Hpi4.
  rewrite js_mul_fin by (apply Rabs_def1; nra).
  apply js_div_fin; [lra|]. apply Rabs_def1; nra.
Qed.

(** On finite Numbers with a non-zero period, an eccentricity in [[0,1)]
    and magnitudes far from the overflow threshold, no operation
    overflows and the program computes the real-arithmetic position. *)
Lemma calculateOrbitalPosition_finite (t a e P i Om om : R) :
  P <> 0 -> 0 <= e < 1 ->
  farFromOverflow (t / P) -> farFromOverflow a ->
  farFromOverflow i -> farFromOverflow Om -> farFromOverflow om ->
  calculateOrbitalPosition (Fin t) (Fin a) (Fin e) (Fin P) (Fin i) (Fin Om) (Fin om) =
  finVector (calculateOrbitalPosition t a e P i Om om).
Proof.
  intros HP He Hq Ha Hi HOm Hom.
  destruct (meanAnomaly_fin t P HP Hq) as [HM HMb].
  destruct (eccentricAnomaly_fin (meanAnomaly t P) e He HMb) as [HE HEb].
  pose proof (trueAnomaly_fin e _ He HEb) as Hnu.
  destruct (distance_fin a e (trueAnomaly e (eccentricAnomaly (meanAnomaly t P) e))
              He Ha) as [Hr Hrb].
  unfold calculateOrbitalPosition at 1. cbv zeta.
  rewrite HM, HE, Hnu, Hr.
  js_ops. rewrite !radians_fin by assumption.
  cbn [js_cos js_sin js_neg].
  repeat first [ rewrite js_mul_fin by in_range
               | rewrite js_sub_fin by in_range
               | rewrite js_add_fin by in_range ].
  rewrite calculateOrbitalPosition_real. cbv zeta.
  unfold finVector, distanceAt, trueAnomalyAt. cbn [THREE.x THREE.y THREE.z].
  reflexivity.
Qed.

(** *** The steps once a Number is [NaN] *)

Lemma calculateOrbitalPosition_NaN_anomaly (t a e P i Om om : jsnum) :
  trueAnomaly e (eccentricAnomaly (meanAnomaly t P) e) = NaN ->
  calculateOrbitalPosition t a e P i Om om = THREE.mkVector3 NaN NaN NaN.
Proof.
  intros Hnu. unfold calculateOrbitalPosition. cbv zeta. rewrite Hnu.
  js_ops. cbn [js_cos js_sin].
  rewrite !js_mul_NaN_r. rewrite !js_add_NaN_r. reflexivity.
Qed.

Lemma trueAnomaly_of_NaN (e : jsnum) : trueAnomaly e NaN = NaN.
Proof.
  unfold trueAnomaly. js_ops.
  cbn [js_div js_sin]. rewrite js_mul_NaN_r. reflexivity.
Qed.

Lemma calculateOrbitalPosition_not_finite_anomaly (t a e P i Om om : jsnum) :
  isFinite (meanAnomaly t P) = false ->
  calculateOrbitalPosition t a e P i Om om = THREE.mkVector3 NaN NaN NaN.
Proof.
  intros HM. apply calculateOrbitalPosition_NaN_anomaly.
  rewrite eccentricAnomaly_not_finite by exact HM. apply trueAnomaly_of_NaN.
Qed.

(** With a zero period every coordinate is [NaN], whatever the other
    arguments. *)
Lemma calculateOrbitalPosition_zero_period (t a e i Om om : jsnum) :
  calculateOrbitalPosition t a e (Fin 0) i Om om = THREE.mkVector3 NaN NaN NaN.
Proof.
  apply calculateOrbitalPosition_not_finite_anomaly.
  unfold meanAnomaly. js_ops.
  apply js_mul_pos_not_finite; [lra|].
  apply js_mul_pos_not_finite; [exact PI_RGT_0|].
  apply js_div_zero.
Qed.

(** When the quotient of the time by the period overflows, every
    coordinate is [NaN]. *)
Lemma calculateOrbitalPosition_overflow (t P : R) (a e i Om om : jsnum) :
  P <> 0 -> overflowThreshold <= Rabs (t / P) ->
  calculateOrbitalPosition (Fin t) a e (Fin P) i Om om =
  THREE.mkVector3 NaN NaN NaN.
Proof.
  intros HP Hq.
  apply calculateOrbitalPosition_not_finite_anomaly.
  unfold meanAnomaly. js_ops.
  apply js_mul_pos_not_finite; [lra|].
  apply js_mul_pos_not_finite; [exact PI_RGT_0|].
  cbn [js_div]. destruct (Req_dec_T P 0) as [H0|_]; [contradiction|].
  pose proof overflowThreshold_large as HT.
  unfold js_number.
  destruct (Rle_dec overflowThreshold (t / P)) as [|Hhi]; [reflexivity|].
  destruct (Rle_dec (t / P) (- overflowThreshold)) as [|Hlo]; [reflexivity|].
  exfalso. revert Hq. unfold Rabs. destruct (Rcase_abs (t / P)); lra.
Qed.

(** The quotient of the time [2^1023] by the period [1/4] overflows. *)
Lemma quotient_overflows : overflowThreshold <= Rabs (2 ^ 1023 / (1 / 4)).
Proof.
  unfold overflowThreshold.
  change (2 ^ 1024) with (2 * 2 ^ 1023).
  pose proof (pow_lt 2 1023 ltac:(lra)) as Hp.
  pose proof (pow_lt 2 970 ltac:(lra)) as Hq.
  set (p := 2 ^ 1023) in *. set (q := 2 ^ 970) in *.
  replace (p / (1 / 4)) with (4 * p) by field.
  rewrite Rabs_right by lra. lra.
Qed.

(** With an eccentricity above [1] every coordinate is [NaN]. *)
Lemma calculateOrbitalPosition_hyperbolic (t a e P i Om om : R) :
  1 < e ->
  calculateOrbitalPosition (Fin t) (Fin a) (Fin e) (Fin P) (Fin i) (Fin Om) (Fin om) =
  THREE.mkVector3 NaN NaN NaN.
Proof.
  intros He. apply calculateOrbitalPosition_NaN_anomaly.
  unfold trueAnomaly. js_ops.
  assert (Hs : js_sqrt (js_sub (Fin 1) (Fin e)) = NaN).
  { unfold js_sub. cbn [js_neg js_add]. unfold js_number.
    pose proof overflowThreshold_large as HT.
    destruct (Rle_dec overflowThreshold (1 + - e)); [lra|].
    destruct (Rle_dec (1 + - e) (- overflowThreshold)); [reflexivity|].
    apply js_sqrt_negative. lra. }
  rewrite Hs. cbn [js_mul]. rewrite js_atan2_NaN_r. reflexivity.
Qed.

(** C1, as amended. [calculateOrbitalPosition] validates nothing and
    never gives an error result: every call returns a vector.  With
    [orbitalPeriod = 0] its three coordinates are [NaN], whatever the
    time and the other arguments, finite or not.  With a non-zero period
    and an eccentricity in [[0,1)] the coordinates are finite (and, no
    rounding being modelled, the real-arithmetic ones) when the quotient
    of the time by the period, the semi-major axis and the three angles
    are far from the overflow threshold.  They are not finite for every
    in-range input: when the quotient of the time by the period
    overflows, the three coordinates are [NaN] again. *)
Theorem calculateOrbitalPosition_never_rejects :
  (forall time a e P i Om om : jsnum,
      exists v, call_calculateOrbitalPosition time a e P i Om om = Returns v) /\
  (forall time a e i Om om : jsnum,
      call_calculateOrbitalPosition time a e (Fin 0) i Om om =
      Returns (THREE.mkVector3 NaN NaN NaN)) /\
  (forall t a e P i Om om : R,
      P <> 0 -> 0 <= e < 1 ->
      farFromOverflow (t / P) -> farFromOverflow a ->
      farFromOverflow i -> farFromOverflow Om -> farFromOverflow om ->
      call_calculateOrbitalPosition (Fin t) (Fin a) (Fin e) (Fin P)
                                    (Fin i) (Fin Om) (Fin om) =
      Returns (finVector (calculateOrbitalPosition t a e P i Om om))) /\
  (forall (t P : R) (a e i Om om : jsnum),
      P <> 0 -> overflowThreshold <= Rabs (t / P) ->
      call_calculateOrbitalPosition (Fin t) a e (Fin P) i Om om =
      Returns (THREE.mkVector3 NaN NaN NaN)).
Proof.
  unfold call_calculateOrbitalPosition.
  split; [|split; [|split]].
  - intros. eexists. reflexivity.
  - intros. now rewrite calculateOrbitalPosition_zero_period.
  - intros. now rewrite calculateOrbitalPosition_finite.
  - intros. now rewrite calculateOrbitalPosition_overflow.
Qed.

Lemma small_farFromOverflow (r : R) : Rabs r <= 1000 -> farFromOverflow r.
Proof.
  intros Hr. unfold farFromOverflow. pose proof overflowThreshold_large. lra.
Qed.

Lemma calculateOrbitalPosition_never_rejects_witness :
  call_calculateOrbitalPosition (Fin 3) (Fin 8) (Fin (1/5)) (Fin 12)
                                (Fin 15) (Fin 0) (Fin 0) =
  Returns (finVector (calculateOrbitalPosition 3 8 (1/5) 12 15 0 0)) /\
  call_calculateOrbitalPosition (Fin (2 ^ 1023)) (Fin 8) (Fin (1/5)) (Fin (1 / 4))
                                (Fin 15) (Fin 0) (Fin 0) =
  Returns (THREE.mkVector3 NaN NaN NaN).
Proof.
  split.
  - apply (proj1 (proj2 (proj2 calculateOrbitalPosition_never_rejects))
             3 8 (1/5) 12 15 0 0);
      try lra; apply small_farFromOverflow, Rabs_le; lra.
  - apply (proj2 (proj2 (proj2 calculateOrbitalPosition_never_rejects))
             (2 ^ 1023) (1 / 4)); [lra | exact quotient_overflows].
Defined.

(** The claim fails at [orbitalPeriod = 0] (the other arguments are those
    of Mercury, at [time = 3]): the call returns, and what it returns is
    a vector of [NaN]s, not an error.  It also fails for the in-range
    period [1/4] at the time [2^1023]: the triple is not finite. *)
Lemma zero_period_returns_NaN :
  let result :=
    call_calculateOrbitalPosition (Fin 3) (Fin 8) (Fin (1/5)) (Fin 0)
                                  (Fin 15) (Fin 0) (Fin 0) in
  let overflowed :=
    call_calculateOrbitalPosition (Fin (2 ^ 1023)) (Fin 8) (Fin (1/5)) (Fin (1 / 4))
                                  (Fin 15) (Fin 0) (Fin 0) in
  result = Returns (THREE.mkVector3 NaN NaN NaN) /\
  (forall error, result <> Throws error) /\
  overflowed = Returns (THREE.mkVector3 NaN NaN NaN).
Proof.
  cbv zeta. unfold call_calculateOrbitalPosition.
  rewrite calculateOrbitalPosition_zero_period.
  rewrite calculateOrbitalPosition_overflow by (lra || exact quotient_overflows).
  split; [reflexivity|]. split; [intros error; discriminate | reflexivity].
Qed.

(** * Further properties of the kernel *)

(** ** The accuracy of the five iterations *)

Lemma sin_lipschitz_abs (x y : R) : Rabs (sin x - sin y) <= Rabs (x - y).
Proof.
  destruct (Rle_lt_dec y x) as [Hle|Hlt].
  - pose proof (sin_lipschitz y x Hle) as [H1 H2].
    rewrite (Rabs_right (x - y)) by lra. apply Rabs_le. lra.
  - pose proof (sin_lipschitz x y ltac:(lra)) as [H1 H2].
    rewrite (Rabs_left (x - y)) by lra. apply Rabs_le. lra.
Qed.

(** Each iteration brings the iterate closer to a solution of Kepler's
    equation by the factor [e]. *)
Lemma kepler_loop_contracts (n : nat) (M e x Estar : R) :
  0 <= e -> Estar = M + e * sin Estar ->
  Rabs (kepler_loop n M e x - Estar) <= e ^ n * Rabs (x - Estar).
Proof.
  intros He Hfix. revert x. induction n as [|n IH]; intros x.
  - cbn [kepler_loop pow]. lra.
  - cbn [kepler_loop]. cbn [add mul Math_sin RealArith].
    eapply Rle_trans; [apply IH|].
    replace (M + e * sin x - Estar) with (e * (sin x - sin Estar)) by lra.
    rewrite Rabs_mult, (Rabs_right e) by lra.
    pose proof (sin_lipschitz_abs x Estar) as Hl.
    pose proof (pow_le e n He) as Hp.
    cbn [pow]. 
    replace (e * e ^ n * Rabs (x - Estar)) with (e ^ n * (e * Rabs (x - Estar))) by ring.
    apply Rmult_le_compat_l; [assumption|].
    apply Rmult_le_compat_l; assumption.
Qed.

(** X1. Whenever [Estar] solves Kepler's equation [E = M + e sin E], the
    eccentric anomaly that the five iterations compute is within [e^6]
    of it. *)
Theorem eccentricAnomaly_error (M e Estar : R) :
  0 <= e -> Estar = M + e * sin Estar ->
  Rabs (eccentricAnomaly M e - Estar) <= e ^ 6.
Proof.
  intros He Hfix. unfold eccentricAnomaly.
  eapply Rle_trans; [apply kepler_loop_contracts; assumption|].
  assert (Hd : Rabs (M - Estar) <= e).
  { replace (M - Estar) with (- (e * sin Estar)) by lra.
    rewrite Rabs_Ropp, Rabs_mult, (Rabs_right e) by lra.
    pose proof (SIN_bound Estar) as [Hlo Hhi].
    assert (Rabs (sin Estar) <= 1) by (apply Rabs_le; lra).
    nra. }
  pose proof (pow_le e 5 He) as Hp.
  replace (e ^ 6) with (e ^ 5 * e) by ring.
  apply Rmult_le_compat_l; assumption.
Qed.

Lemma eccentricAnomaly_error_witness :
  Rabs (eccentricAnomaly PI (1/5) - PI) <= (1/5) ^ 6.
Proof.
  apply (eccentricAnomaly_error PI (1/5) PI); [lra|].
  rewrite sin_PI. lra.
Defined.

(** ** The shape of the orbit *)

Lemma sqrt_sum_squares_pos (x y : R) :
  x <> 0 \/ y <> 0 -> 0 < sqrt (x * x + y * y).
Proof.
  intros Hnz. apply sqrt_lt_R0.
  destruct Hnz as [Hx|Hy]; nra.
Qed.

Lemma sqrt_one_plus_square (x y : R) :
  x <> 0 -> sqrt (1 + (y / x)²) = sqrt (x * x + y * y) / Rabs x.
Proof.
  intros Hx.
  assert (Ha : 0 < Rabs x) by (apply Rabs_pos_lt; assumption).
  assert (Hd : 0 < sqrt (x * x + y * y)) by (apply sqrt_sum_squares_pos; now left).
  apply sqrt_lem_1.
  - unfold Rsqr. nra.
  - apply Rlt_le, Rdiv_lt_0_compat; assumption.
  - unfold Rdiv. 
    replace (sqrt (x * x + y * y) * / Rabs x * (sqrt (x * x + y * y) * / Rabs x))
      with (sqrt (x * x + y * y) * sqrt (x * x + y * y) * (/ Rabs x * / Rabs x)) by ring.
    rewrite sqrt_sqrt by nra.
    rewrite <- Rinv_mult.
    replace (Rabs x * Rabs x) with (x * x)
      by (unfold Rabs; destruct (Rcase_abs x); ring).
    unfold Rsqr. field. assumption.
Qed.

(** [atan2] gives the angle of a point: its cosine and sine are the
    coordinates over the distance. *)
Lemma Ratan2_polar (y x : R) :
  x <> 0 \/ y <> 0 ->
  cos (Ratan2 y x) = x / sqrt (x * x + y * y) /\
  sin (Ratan2 y x) = y / sqrt (x * x + y * y).
Proof.
  intros Hnz.
  pose proof (sqrt_sum_squares_pos x y Hnz) as Hd.
  set (d := sqrt (x * x + y * y)) in *.
  assert (Hat : x <> 0 ->
            cos (atan (y / x)) = Rabs x / d /\ sin (atan (y / x)) = y / x * (Rabs x / d)).
  { intros Hx. rewrite cos_atan, sin_atan, sqrt_one_plus_square by assumption.
    fold d. assert (0 < Rabs x) by (apply Rabs_pos_lt; assumption).
    split; field; lra. }
  unfold Ratan2.
  destruct (Rlt_dec 0 x) as [Hx|Hx].
  - destruct (Hat ltac:(lra)) as [-> ->]. rewrite Rabs_right by lra.
    split; field; lra.
  - destruct (Rlt_dec x 0) as [Hx'|Hx'].
    + destruct (Hat ltac:(lra)) as [Hc Hs]. rewrite Rabs_left in Hc, Hs by lra.
      destruct (Rle_dec 0 y).
      * rewrite neg_cos, neg_sin, Hc, Hs. split; field; lra.
      * replace (atan (y / x) - PI) with (atan (y / x) + PI - 2 * PI) by ring.
        rewrite cos_sub_2PI, sin_sub_2PI, neg_cos, neg_sin, Hc, Hs.
        split; field; lra.
    + assert (x = 0) by lra. subst x.
      assert (Hdy : d = Rabs y).
      { unfold d. replace (0 * 0 + y * y) with (Rsqr y) by (unfold Rsqr; ring).
        apply sqrt_Rsqr_abs. }
      destruct (Rlt_dec 0 y).
      * rewrite cos_PI2, sin_PI2, Hdy, Rabs_right by lra. split; field; lra.
      * destruct (Rlt_dec y 0).
        -- rewrite cos_neg, sin_neg, cos_PI2, sin_PI2, Hdy, Rabs_left by lra.
           split; field; lra.
        -- exfalso. destruct Hnz; lra.
Qed.

(** The true anomaly, from the eccentric anomaly. *)
Lemma trueAnomaly_cos_sin (e E : R) :
  0 <= e < 1 ->
  cos (trueAnomaly e E) = (cos E - e) / (1 - e * cos E) /\
  sin (trueAnomaly e E) = sqrt (1 - e * e) * sin E / (1 - e * cos E).
Proof.
  intros He. unfold trueAnomaly.
  cbn [add sub mul div Math_sin Math_cos Math_sqrt Math_atan2 lit RealArith].
  pose proof (trueAnomaly_arguments_nonzero e E He) as Hnz.
  destruct (Ratan2_polar _ _ Hnz) as [Hc Hs].
  pose proof (sqrt_sum_squares_pos _ _ Hnz) as Hd.
  set (th := Ratan2 (sqrt (1 + e) * sin (E / 2)) (sqrt (1 - e) * cos (E / 2))) in *.
  set (A := sqrt (1 + e)) in *. set (B := sqrt (1 - e)) in *.
  set (s := sin (E / 2)) in *. set (c := cos (E / 2)) in *.
  assert (HA : A * A = 1 + e) by (apply sqrt_sqrt; lra).
  assert (HB : B * B = 1 - e) by (apply sqrt_sqrt; lra).
  assert (HAB : A * B = sqrt (1 - e * e)).
  { unfold A, B. rewrite <- sqrt_mult by lra. f_equal. ring. }
  assert (Hsc : s * s + c * c = 1) by apply sin_cos_sq.
  assert (HcE : cos E = c * c - s * s).
  { replace E with (2 * (E / 2)) at 1 by field. apply cos_2a. }
  assert (HsE : sin E = 2 * s * c).
  { replace E with (2 * (E / 2)) at 1 by field. apply sin_2a. }
  set (d := sqrt (B * c * (B * c) + A * s * (A * s))) in *.
  assert (Hdd : d * d = 1 - e * cos E).
  { unfold d. rewrite sqrt_sqrt by nra. rewrite HcE. nra. }
  assert (Hden : 0 < 1 - e * cos E) by (rewrite <- Hdd; nra).
  rewrite cos_2a, sin_2a, Hc, Hs, <- HAB, <- Hdd, HcE, HsE.
  split.
  - transitivity ((B * B * (c * c) - A * A * (s * s)) / (d * d)); [field; lra|].
    rewrite HA, HB. apply (f_equal (fun n => n / (d * d))). nra.
  - field. lra.
Qed.

(** The position, from the eccentric anomaly. *)
Lemma calculateOrbitalPosition_eccentric (t a e P i Om om : R) :
  0 <= e < 1 ->
  let E := eccentricAnomaly (meanAnomaly t P) e in
  distanceAt t a e P = a * (1 - e * cos E) /\
  calculateOrbitalPosition t a e P i Om om =
    Reference.mat_vec (Reference.orientation i Om om)
      (THREE.mkVector3 (a * (cos E - e)) (a * sqrt (1 - e * e) * sin E) 0).
Proof.
  intros He E.
  destruct (trueAnomaly_cos_sin e E He) as [Hc Hs].
  pose proof (COS_bound E) as [HE1 HE2].
  assert (Hden : 0 < 1 - e * cos E) by nra.
  assert (Hr : distanceAt t a e P = a * (1 - e * cos E)).
  { unfold distanceAt, trueAnomalyAt, distance. fold E.
    cbn [add sub mul div Math_cos lit RealArith]. rewrite Hc.
    field. split; nra. }
  split; [exact Hr|].
  rewrite calculateOrbitalPosition_real. cbv zeta.
  rewrite rotation_reference, Hr. unfold trueAnomalyAt. fold E.
  rewrite Hc, Hs. apply f_equal.
  apply (f_equal2 (fun u v => THREE.mkVector3 u v 0)); field; lra.
Qed.

Lemma position_length_eccentric (t a e P i Om om : R) :
  0 < a -> 0 <= e < 1 ->
  THREE.length (calculateOrbitalPosition t a e P i Om om) =
  a * (1 - e * cos (eccentricAnomaly (meanAnomaly t P) e)).
Proof.
  intros Ha He. rewrite position_length by assumption.
  apply (calculateOrbitalPosition_eccentric t a e P i Om om He).
Qed.

Lemma between_apsides (a e c : R) :
  0 < a -> 0 <= e < 1 -> -1 <= c <= 1 ->
  a * (1 - e) <= a * (1 - e * c) <= a * (1 + e).
Proof.
  intros Ha He Hc. assert (Hae : 0 <= a * e) by nra. split; nra.
Qed.

(** X2. For valid elements the position is the rotated point
    [(a (cos E - e), a sqrt(1 - e^2) sin E, 0)] of the ellipse of
    semi-major axis [a] and eccentricity [e] with a focus at the origin,
    where [E] is the eccentric anomaly that the iteration computed, and
    its distance from the origin is [a (1 - e cos E)]: whatever the
    accuracy of the five iterations, the planet is on its ellipse. *)
Theorem position_on_ellipse (t a e P i Om om : R) :
  0 < a -> 0 <= e < 1 -> 0 < P ->
  let E := eccentricAnomaly (meanAnomaly t P) e in
  let xo := a * (cos E - e) in
  let yo := a * sqrt (1 - e * e) * sin E in
  calculateOrbitalPosition t a e P i Om om =
    Reference.mat_vec (Reference.orientation i Om om) (THREE.mkVector3 xo yo 0) /\
  THREE.length (calculateOrbitalPosition t a e P i Om om) = a * (1 - e * cos E) /\
  ((xo + a * e) / a) ^ 2 + (yo / (a * sqrt (1 - e * e))) ^ 2 = 1.
Proof.
  intros Ha He HP E xo yo.
  destruct (calculateOrbitalPosition_eccentric t a e P i Om om He) as [Hr Hpos].
  split; [exact Hpos|]. split.
  - apply position_length_eccentric; assumption.
  - assert (Hb : 0 < sqrt (1 - e * e)) by (apply sqrt_lt_R0; nra).
    unfold xo, yo. fold E.
    replace ((a * (cos E - e) + a * e) / a) with (cos E) by (field; lra).
    replace (a * sqrt (1 - e * e) * sin E / (a * sqrt (1 - e * e))) with (sin E)
      by (field; lra).
    pose proof (sin_cos_sq E). nra.
Qed.

Lemma position_on_ellipse_witness :
  let E := eccentricAnomaly (meanAnomaly 3 12) (1/5) in
  let xo := 8 * (cos E - 1/5) in
  let yo := 8 * sqrt (1 - 1/5 * (1/5)) * sin E in
  calculateOrbitalPosition 3 8 (1/5) 12 15 0 0 =
    Reference.mat_vec (Reference.orientation 15 0 0) (THREE.mkVector3 xo yo 0) /\
  THREE.length (calculateOrbitalPosition 3 8 (1/5) 12 15 0 0) = 8 * (1 - 1/5 * cos E) /\
  ((xo + 8 * (1/5)) / 8) ^ 2 + (yo / (8 * sqrt (1 - 1/5 * (1/5)))) ^ 2 = 1.
Proof.
  apply (position_on_ellipse 3 8 (1/5) 12 15 0 0); lra.
Defined.

(** X3. For valid elements the distance from the origin stays between
    the periapsis distance [a (1 - e)] and the apoapsis distance
    [a (1 + e)], at every time. *)
Theorem position_within_apsides (t a e P i Om om : R) :
  0 < a -> 0 <= e < 1 -> 0 < P ->
  a * (1 - e) <= THREE.length (calculateOrbitalPosition t a e P i Om om) <= a * (1 + e).
Proof.
  intros Ha He HP.
  rewrite position_length_eccentric by assumption.
  apply between_apsides; [assumption | assumption |].
  apply COS_bound.
Qed.

Lemma position_within_apsides_witness :
  8 * (1 - 1/5) <= THREE.length (calculateOrbitalPosition 3 8 (1/5) 12 15 0 0)
    <= 8 * (1 + 1/5).
Proof.
  apply (position_within_apsides 3 8 (1/5) 12 15 0 0); lra.
Defined.

(** ** Periapsis and apoapsis *)

Lemma meanAnomaly_0 (P : R) : meanAnomaly 0 P = 0.
Proof. unfold meanAnomaly. cbn [mul div lit Math_PI RealArith]. unfold Rdiv. ring. Qed.

Lemma meanAnomaly_half (P : R) : P <> 0 -> meanAnomaly (P / 2) P = PI.
Proof.
  intros HP. unfold meanAnomaly. cbn [mul div lit Math_PI RealArith].
  field. assumption.
Qed.

Lemma kepler_loop_PI (n : nat) (e : R) : kepler_loop n PI e PI = PI.
Proof.
  induction n as [|n IH]; [reflexivity|].
  cbn [kepler_loop]. cbn [add mul Math_sin RealArith].
  rewrite sin_PI. replace (PI + e * 0) with PI by ring. exact IH.
Qed.

(** X4. For valid elements the planet is at periapsis at [time = 0], at
    the distance [a (1 - e)] along the rotated x axis, and at apoapsis
    half a period later, at the distance [a (1 + e)] on the opposite
    side: at these two times the iteration is exact. *)
Theorem periapsis_and_apoapsis (a e P i Om om : R) :
  0 < a -> 0 <= e < 1 -> 0 < P ->
  calculateOrbitalPosition 0 a e P i Om om =
    Reference.mat_vec (Reference.orientation i Om om)
      (THREE.mkVector3 (a * (1 - e)) 0 0) /\
  THREE.length (calculateOrbitalPosition 0 a e P i Om om) = a * (1 - e) /\
  calculateOrbitalPosition (P / 2) a e P i Om om =
    Reference.mat_vec (Reference.orientation i Om om)
      (THREE.mkVector3 (- (a * (1 + e))) 0 0) /\
  THREE.length (calculateOrbitalPosition (P / 2) a e P i Om om) = a * (1 + e).
Proof.
  intros Ha He HP.
  destruct (calculateOrbitalPosition_eccentric 0 a e P i Om om He) as (_ & H0).
  destruct (calculateOrbitalPosition_eccentric (P / 2) a e P i Om om He) as (_ & H1).
  pose proof (position_length_eccentric 0 a e P i Om om Ha He) as L0.
  pose proof (position_length_eccentric (P / 2) a e P i Om om Ha He) as L1.
  cbv zeta in H0, H1.
  rewrite meanAnomaly_0, eccentricAnomaly_0, cos_0 in H0, L0.
  rewrite sin_0 in H0.
  rewrite meanAnomaly_half in H1, L1 by lra.
  unfold eccentricAnomaly in H1, L1.
  rewrite kepler_loop_PI, cos_PI in H1, L1.
  rewrite sin_PI in H1.
  split; [|split; [|split]].
  - rewrite H0. apply f_equal.
    apply (f_equal2 (fun u v => THREE.mkVector3 u v 0)); ring.
  - rewrite L0. ring.
  - rewrite H1. apply f_equal.
    apply (f_equal2 (fun u v => THREE.mkVector3 u v 0)); ring.
  - rewrite L1. ring.
Qed.

Lemma periapsis_and_apoapsis_witness :
  calculateOrbitalPosition 0 8 (1/5) 12 15 0 0 =
    Reference.mat_vec (Reference.orientation 15 0 0)
      (THREE.mkVector3 (8 * (1 - 1/5)) 0 0) /\
  THREE.length (calculateOrbitalPosition 0 8 (1/5) 12 15 0 0) = 8 * (1 - 1/5) /\
  calculateOrbitalPosition (12 / 2) 8 (1/5) 12 15 0 0 =
    Reference.mat_vec (Reference.orientation 15 0 0)
      (THREE.mkVector3 (- (8 * (1 + 1/5))) 0 0) /\
  THREE.length (calculateOrbitalPosition (12 / 2) 8 (1/5) 12 15 0 0) = 8 * (1 + 1/5).
Proof.
  apply (periapsis_and_apoapsis 8 (1/5) 12 15 0 0); lra.
Defined.

(** ** The plane of the orbit *)

(** X5. For valid elements every position is orthogonal to the vector
    [(sin Omega sin i, - cos Omega sin i, cos i)], which depends neither
    on the time nor on the argument of periapsis: the orbit lies in one
    plane through the origin.  With inclination [0] it is the plane
    [z = 0]. *)
Theorem orbit_is_planar (t a e P i Om om : R) :
  0 < a -> 0 <= e < 1 -> 0 < P ->
  let v := calculateOrbitalPosition t a e P i Om om in
  THREE.x v * (sin (Om * PI / 180) * sin (i * PI / 180))
  + THREE.y v * (- cos (Om * PI / 180) * sin (i * PI / 180))
  + THREE.z v * cos (i * PI / 180) = 0 /\
  (i = 0 -> THREE.z v = 0).
Proof.
  intros _ _ _. cbv zeta.
  rewrite calculateOrbitalPosition_real. cbv zeta. cbn [THREE.x THREE.y THREE.z].
  set (xo := distanceAt t a e P * cos (trueAnomalyAt t e P)).
  set (yo := distanceAt t a e P * sin (trueAnomalyAt t e P)).
  split.
  - pose proof (sin_cos_sq (Om * PI / 180)) as HO.
    revert HO.
    generalize (cos (om * PI / 180)) (sin (om * PI / 180))
               (cos (i * PI / 180)) (sin (i * PI / 180))
               (cos (Om * PI / 180)) (sin (Om * PI / 180)).
    intros co so ci si cO sO HO.
    transitivity ((1 - (sO * sO + cO * cO)) * (ci * si * (so * xo + co * yo))); [ring|].
    rewrite HO. ring.
  - intros ->. replace (0 * PI / 180) with 0 by (unfold Rdiv; ring).
    rewrite sin_0. ring.
Qed.

Lemma orbit_is_planar_witness :
  let v := calculateOrbitalPosition 3 8 (1/5) 12 0 0 0 in
  THREE.x v * (sin (0 * PI / 180) * sin (0 * PI / 180))
  + THREE.y v * (- cos (0 * PI / 180) * sin (0 * PI / 180))
  + THREE.z v * cos (0 * PI / 180) = 0 /\
  THREE.z v = 0.
Proof.
  pose proof (orbit_is_planar 3 8 (1/5) 12 0 0 0
                ltac:(lra) ltac:(lra) ltac:(lra)) as [H1 H2].
  split; [exact H1 | exact (H2 eq_refl)].
Defined.

(** ** Symmetry in time *)

Lemma meanAnomaly_opp (t P : R) : meanAnomaly (- t) P = - meanAnomaly t P.
Proof. unfold meanAnomaly. cbn [mul div lit Math_PI RealArith]. unfold Rdiv. ring. Qed.

Lemma kepler_loop_opp (n : nat) (M e x : R) :
  kepler_loop n (- M) e (- x) = - kepler_loop n M e x.
Proof.
  revert x. induction n as [|n IH]; intros x; [reflexivity|].
  cbn [kepler_loop]. cbn [add mul Math_sin RealArith].
  rewrite sin_neg.
  replace (- M + e * - sin x) with (- (M + e * sin x)) by ring.
  apply IH.
Qed.

(** X6. For valid elements the orbit is symmetric about the passage at
    periapsis: at the time [-t] the planet is at the mirror image, in the
    plane of the orbit, of its place at [t], so at the same distance
    from the origin; by periodicity the same holds of [P - t]. *)
Theorem position_time_symmetric (t a e P i Om om : R) :
  0 < a -> 0 <= e < 1 -> 0 < P ->
  let E := eccentricAnomaly (meanAnomaly t P) e in
  calculateOrbitalPosition (- t) a e P i Om om =
    Reference.mat_vec (Reference.orientation i Om om)
      (THREE.mkVector3 (a * (cos E - e)) (- (a * sqrt (1 - e * e) * sin E)) 0) /\
  THREE.length (calculateOrbitalPosition (- t) a e P i Om om) =
    THREE.length (calculateOrbitalPosition t a e P i Om om) /\
  calculateOrbitalPosition (P - t) a e P i Om om =
    calculateOrbitalPosition (- t) a e P i Om om.
Proof.
  intros Ha He HP E.
  destruct (calculateOrbitalPosition_eccentric (- t) a e P i Om om He) as (_ & Hm).
  pose proof (position_length_eccentric (- t) a e P i Om om Ha He) as Lm.
  pose proof (position_length_eccentric t a e P i Om om Ha He) as Lp.
  cbv zeta in Hm.
  assert (HE : eccentricAnomaly (meanAnomaly (- t) P) e = - E).
  { rewrite meanAnomaly_opp. unfold E, eccentricAnomaly. apply kepler_loop_opp. }
  rewrite HE, cos_neg in Hm, Lm. rewrite sin_neg in Hm. fold E in Lp.
  split; [|split].
  - rewrite Hm. apply f_equal.
    apply (f_equal2 (fun u v => THREE.mkVector3 u v 0)); ring.
  - rewrite Lm, Lp. reflexivity.
  - replace (P - t) with (- t + P) by ring.
    apply calculateOrbitalPosition_period; [assumption | lra].
Qed.

Lemma position_time_symmetric_witness :
  THREE.length (calculateOrbitalPosition (- 3) 8 (1/5) 12 15 0 0) =
  THREE.length (calculateOrbitalPosition 3 8 (1/5) 12 15 0 0).
Proof.
  apply (position_time_symmetric 3 8 (1/5) 12 15 0 0); lra.
Defined.

(** ** Only the phase matters *)

Lemma meanAnomaly_scale (k t P : R) :
  k <> 0 -> P <> 0 -> meanAnomaly (k * t) (k * P) = meanAnomaly t P.
Proof.
  intros Hk HP. unfold meanAnomaly. cbn [mul div lit Math_PI RealArith].
  field. split; assumption.
Qed.

Lemma calculateOrbitalPosition_scale (k t a e P i Om om : R) :
  k <> 0 -> P <> 0 ->
  calculateOrbitalPosition (k * t) a e (k * P) i Om om =
  calculateOrbitalPosition t a e P i Om om.
Proof.
  intros Hk HP. rewrite !calculateOrbitalPosition_real. cbv zeta.
  unfold distanceAt, trueAnomalyAt.
  rewrite meanAnomaly_scale by assumption. reflexivity.
Qed.

(** X7. The ring, sampled with the dummy period [10], passes through
    the places of the planet itself: for a planet with a non-zero
    period, the sample of index [i] is the position of the planet at the
    time [i / 64] of its own period; and the time and the period can be
    scaled together without moving the position. *)
Theorem ring_passes_through_planet (planet : Planet R) :
  orbitalPeriod planet <> 0 ->
  (forall i, (i <= 64)%nat ->
     nth_error (ringPoints planet) i =
     Some (planetPosition planet (IZR (Z.of_nat i) / 64 * orbitalPeriod planet))) /\
  (forall k t, k <> 0 ->
     calculateOrbitalPosition (k * t) (semiMajorAxis planet) (eccentricity planet)
       (k * orbitalPeriod planet) (inclination planet)
       (longitudeOfAscendingNode planet) (argumentOfPeriapsis planet) =
     planetPosition planet t).
Proof.
  intros HP. split.
  - intros i Hi. rewrite ringPoints_nth by assumption. apply f_equal.
    rewrite ringPoint_phase. unfold planetPosition.
    rewrite <- (calculateOrbitalPosition_scale (10 / orbitalPeriod planet)
                  (IZR (Z.of_nat i) / 64 * orbitalPeriod planet)
                  _ _ (orbitalPeriod planet)).
    + replace (10 / orbitalPeriod planet * (IZR (Z.of_nat i) / 64 * orbitalPeriod planet))
        with (IZR (Z.of_nat i) / 64 * 10) by (field; assumption).
      replace (10 / orbitalPeriod planet * orbitalPeriod planet) with 10
        by (field; assumption).
      reflexivity.
    + unfold Rdiv. apply Rmult_integral_contrapositive_currified; [lra|].
      apply Rinv_neq_0_compat. assumption.
    + assumption.
  - intros k t Hk. unfold planetPosition.
    apply calculateOrbitalPosition_scale; assumption.
Qed.

Lemma ring_passes_through_planet_witness :
  nth_error (ringPoints mercury) 16 =
  Some (planetPosition mercury (IZR (Z.of_nat 16) / 64 * orbitalPeriod mercury)).
Proof.
  apply (ring_passes_through_planet mercury); [cbn; lra | lia].
Defined.

(** * Further properties of the trail *)

Lemma trailLines_nth (l : list (TrailSegment R)) (k : nat) :
  nth_error (trailLines l) k =
  match nth_error l k, nth_error l (S k) with
  | Some segment, Some nextSegment =>
      Some {| points := (position segment, position nextSegment);
              lineOpacity := (opacity segment + opacity nextSegment) / 2 * 1 |}
  | _, _ => None
  end.
Proof.
  revert k. induction l as [|s l IH]; intros k.
  - destruct k; reflexivity.
  - destruct l as [|n l'].
    + destruct k as [|[|k]]; reflexivity.
    + destruct k as [|k]; [reflexivity|].
      cbn [trailLines nth_error]. rewrite IH. reflexivity.
Qed.

Lemma trailLines_length {T : Type} `{JSArith T} (l : list (TrailSegment T)) :
  List.length (trailLines l) = (List.length l - 1)%nat.
Proof.
  induction l as [|s l IH]; [reflexivity|].
  destruct l as [|n l']; [reflexivity|].
  cbn [trailLines List.length] in *. rewrite IH. lia.
Qed.

(** The lines that [Trail] renders: the line from the sample [j + 1] to
    the sample [j] is the line of index [N - 2 - j]. *)
Lemma Trail_lines (config : SolarSystemConfig R) (planet : Planet R) (time : R) :
  0 < orbitalPeriod planet ->
  showTrails (render config) = true ->
  let N := List.length (generatedSegments planet time) in
  (2 <= N)%nat ->
  exists lines,
    Trail config planet time = Some lines /\
    List.length lines = (N - 1)%nat /\
    forall j, (S j < N)%nat ->
      nth_error lines (N - 2 - j) =
      Some {| points := (planetPosition planet (trailTime planet time (S j)),
                         planetPosition planet (trailTime planet time j));
              lineOpacity := (trailOpacity (S j) + trailOpacity j) / 2 * 1 |}.
Proof.
  intros HP Hshow N HN. subst N.
  remember (List.length (generatedSegments planet time)) as N eqn:HNdef.
  exists (trailLines (rev (generatedSegments planet time))).
  split; [|split].
  - unfold Trail, trailSegments. cbv zeta. rewrite Hshow. cbn [negb orb].
    rewrite length_rev, <- HNdef.
    destruct (Nat.ltb_spec N 2); [lia | reflexivity].
  - rewrite trailLines_length, length_rev, <- HNdef. reflexivity.
  - intros j Hj. rewrite trailLines_nth, !nth_error_rev, <- HNdef.
    destruct (Nat.ltb_spec (N - 2 - j) N); [|lia].
    destruct (Nat.ltb_spec (S (N - 2 - j)) N); [|lia].
    replace (N - S (N - 2 - j))%nat with (S j) by lia.
    replace (N - S (S (N - 2 - j)))%nat with j by lia.
    rewrite (generatedSegments_nth planet time (S j) HP) by (rewrite <- HNdef; lia).
    rewrite (generatedSegments_nth planet time j HP) by (rewrite <- HNdef; lia).
    reflexivity.
Qed.

(** X8. When trails are shown, for a valid planet at a clock
    [time >= 0] with at least two samples, [Trail] renders [N - 1] lines;
    each goes from a sample to the next newer one, so that consecutive
    lines share an end; the newest line ends where the planet is at
    [time]; and two consecutive samples are one degree of mean anomaly
    apart, whatever the period. *)
Theorem trail_polyline (config : SolarSystemConfig R) (planet : Planet R) (time : R) :
  validElements planet -> 0 <= time ->
  showTrails (render config) = true ->
  (2 <= List.length (generatedSegments planet time))%nat ->
  let N := List.length (generatedSegments planet time) in
  exists lines,
    Trail config planet time = Some lines /\
    List.length lines = (N - 1)%nat /\
    (forall j, (S j < N)%nat ->
       exists line, nth_error lines (N - 2 - j) = Some line /\
         points line = (planetPosition planet (trailTime planet time (S j)),
                        planetPosition planet (trailTime planet time j))) /\
    (exists line, nth_error lines (N - 2) = Some line /\
                  snd (points line) = planetPosition planet time) /\
    (forall j, meanAnomaly (trailTime planet time j) (orbitalPeriod planet) =
               meanAnomaly time (orbitalPeriod planet) - IZR (Z.of_nat j) * (PI / 180)).
Proof.
  intros (_ & _ & HP) Ht Hshow HN N.
  destruct (Trail_lines config planet time HP Hshow HN) as (lines & HT & Hlen & Hnth).
  fold N in Hlen, Hnth.
  exists lines. split; [exact HT|]. split; [exact Hlen|]. split; [|split].
  - intros j Hj. eexists. split; [apply Hnth, Hj | reflexivity].
  - eexists. split.
    + replace (N - 2)%nat with (N - 2 - 0)%nat by lia. apply Hnth. fold N in HN. lia.
    + cbn [points snd]. apply f_equal.
      rewrite trailTime_real. cbn [Z.of_nat]. lra.
  - intros j. rewrite trailTime_real. unfold meanAnomaly.
    cbn [mul div lit Math_PI RealArith]. field. lra.
Qed.

Lemma trail_polyline_witness :
  showTrails (render (updateConfig_render (@defaultConfig R _)
                        (mkRenderConfig true true 100 true))) = true /\
  (2 <= List.length (generatedSegments mercury 100%R))%nat /\
  exists lines,
    Trail (updateConfig_render defaultConfig (mkRenderConfig true true 100 true))
          mercury 100 = Some lines /\
    List.length lines = (List.length (generatedSegments mercury 100%R) - 1)%nat.
Proof.
  assert (Hlen : List.length (generatedSegments mercury 100) = 60%nat)
    by (apply full_trail_length; cbn; lra).
  split; [reflexivity|]. split; [lia|].
  destruct (trail_polyline
              (updateConfig_render defaultConfig (mkRenderConfig true true 100 true))
              mercury 100 mercury_valid ltac:(lra) eq_refl ltac:(lia))
    as (lines & HT & HL & _).
  exists lines. split; assumption.
Defined.

(** X9. Under the same conditions the line from the sample [j + 1] to
    the sample [j] has the opacity [1 - (2 j + 1) / 120]: the opacities
    of the rendered lines grow towards the planet, the newest line has
    [119/120], and all lie between [1/40] and [119/120], so that no
    rendered line is invisible and none is opaque. *)
Theorem trail_line_opacity (config : SolarSystemConfig R) (planet : Planet R) (time : R) :
  validElements planet -> 0 <= time ->
  showTrails (render config) = true ->
  (2 <= List.length (generatedSegments planet time))%nat ->
  let N := List.length (generatedSegments planet time) in
  exists lines,
    Trail config planet time = Some lines /\
    (forall j, (S j < N)%nat ->
       exists line, nth_error lines (N - 2 - j) = Some line /\
         lineOpacity line = 1 - (2 * IZR (Z.of_nat j) + 1) / 120 /\
         1 / 40 <= lineOpacity line <= 119 / 120) /\
    (forall k line, nth_error lines k = Some line ->
       1 / 40 <= lineOpacity line <= 119 / 120).
Proof.
  intros (_ & _ & HP) Ht Hshow HN N.
  destruct (generatedSegments_count planet time HP Ht) as ((_ & HN60) & _).
  fold N in HN60.
  destruct (Trail_lines config planet time HP Hshow HN) as (lines & HT & Hlen & Hnth).
  fold N in Hlen, Hnth.
  assert (Hop : forall j, (S j < N)%nat ->
            exists line, nth_error lines (N - 2 - j) = Some line /\
              lineOpacity line = 1 - (2 * IZR (Z.of_nat j) + 1) / 120 /\
              1 / 40 <= lineOpacity line <= 119 / 120).
  { intros j Hj. eexists. split; [apply Hnth, Hj|].
    cbn [lineOpacity]. rewrite !trailOpacity_real by lia. rewrite IZR_of_nat_S.
    pose proof (IZR_of_nat_nonneg j) as H0.
    pose proof (IZR_of_nat_le j 58 ltac:(lia)) as H58.
    change (IZR (Z.of_nat 58)) with 58 in H58.
    split; [field | split; lra]. }
  exists lines. split; [exact HT|]. split; [exact Hop|].
  intros k line Hk.
  assert (Hlt : (k < N - 1)%nat).
  { rewrite <- Hlen. apply nth_error_Some. congruence. }
  destruct (Hop (N - 2 - k)%nat ltac:(lia)) as (line' & Hk' & _ & Hb).
  replace (N - 2 - (N - 2 - k))%nat with k in Hk' by lia.
  rewrite Hk in Hk'. injection Hk' as <-. exact Hb.
Qed.

Lemma trail_line_opacity_witness :
  exists lines,
    Trail (updateConfig_render (@defaultConfig R _) (mkRenderConfig true true 100 true))
          mercury 100 = Some lines /\
    (forall k line, nth_error lines k = Some line ->
       1 / 40 <= lineOpacity line <= 119 / 120).
Proof.
  assert (Hlen : List.length (generatedSegments mercury 100) = 60%nat)
    by (apply full_trail_length; cbn; lra).
  destruct (trail_line_opacity
              (updateConfig_render defaultConfig (mkRenderConfig true true 100 true))
              mercury 100 mercury_valid ltac:(lra) eq_refl ltac:(lia))
    as (lines & HT & _ & Hb).
  exists lines. split; assumption.
Defined.

(** X10. Before the clock starts, for a planet with a positive period and
    a negative [time], every look-back time is negative: the loop pushes
    no segment and [Trail] renders nothing, whether trails are shown or
    not. *)
Theorem trail_empty_before_start (config : SolarSystemConfig R) (planet : Planet R)
    (time : R) :
  0 < orbitalPeriod planet -> time < 0 ->
  generatedSegments planet time = [] /\ Trail config planet time = None.
Proof.
  intros HP Ht.
  destruct (generatedSegments_prefix planet time HP) as (_ & Hgen & Hin & _).
  assert (HN : List.length (generatedSegments planet time) = 0%nat).
  { destruct (List.length (generatedSegments planet time)) as [|n]; [reflexivity|].
    exfalso. specialize (Hin 0%nat ltac:(lia)).
    rewrite trailTime_real in Hin. cbn [Z.of_nat] in Hin. lra. }
  split.
  - apply length_zero_iff_nil, HN.
  - apply Trail_hidden. lia.
Qed.

Lemma trail_empty_before_start_witness :
  generatedSegments mercury (- 1) = [] /\ Trail defaultConfig mercury (- 1) = None.
Proof.
  apply (trail_empty_before_start defaultConfig mercury (- 1)); cbn; lra.
Defined.

(** * Further properties of the clock and of the configuration *)

Lemma step_paused (s : Scene R) (ev : Event R) :
  notPlayPause ev ->
  paused (time (config s)) = true ->
  clock (step s ev) = clock s /\ paused (time (config (step s ev))) = true.
Proof.
  intros Hev Hp. destruct ev; cbn in Hev |- *; try contradiction.
  - unfold useFrame_tick. rewrite Hp. split; reflexivity.
  - split; reflexivity.
  - split; [reflexivity | exact Hp].
  - split; [reflexivity | exact Hp].
Qed.

Lemma run_paused (evs : list (Event R)) (s : Scene R) :
  Forall notPlayPause evs ->
  paused (time (config s)) = true ->
  clock (run s evs) = clock s /\ paused (time (config (run s evs))) = true.
Proof.
  revert s. induction evs as [|ev evs IH]; intros s Hevs Hp.
  - split; [reflexivity | exact Hp].
  - inversion Hevs; subst.
    destruct (step_paused s ev ltac:(assumption) Hp) as [Hc Hp'].
    destruct (IH (step s ev) ltac:(assumption) Hp') as [Hc' Hp''].
    cbn. unfold run in Hc', Hp''. rewrite Hc', Hc. split; [reflexivity | exact Hp''].
Qed.

(** X11. While the clock is paused it does not move: from a paused
    scene, and from any scene after the RotateCcw button, every sequence
    of frames (of any duration), speed changes and render switches that
    does not press play/pause leaves the clock where it was, and leaves
    it paused. *)
Theorem clock_frozen_while_paused (s : Scene R) (evs : list (Event R)) :
  Forall notPlayPause evs ->
  (paused (time (config s)) = true ->
   clock (run s evs) = clock s /\ paused (time (config (run s evs))) = true) /\
  clock (run s (RotateCcwButton :: evs)) = clock s /\
  paused (time (config (run s (RotateCcwButton :: evs)))) = true.
Proof.
  intros Hevs. split.
  - apply run_paused. exact Hevs.
  - destruct (run_paused evs (step s RotateCcwButton) Hevs eq_refl) as [Hc Hp].
    split; [exact Hc | exact Hp].
Qed.

Lemma clock_frozen_while_paused_witness :
  clock (run (@initialScene R _) [RotateCcwButton; Frame 1; SpeedSlider 5; Frame 2]) =
  clock (@initialScene R _).
Proof.
  apply (clock_frozen_while_paused initialScene [Frame 1; SpeedSlider 5; Frame 2]).
  repeat constructor.
Defined.

Lemma run_frames (deltas : list R) (s : Scene R) :
  paused (time (config s)) = false ->
  run s (map (@Frame R) deltas) =
  {| config := config s;
     clock := clock s + totalElapsed deltas * speed (time (config s)) |}.
Proof.
  intros Hp. revert s Hp. induction deltas as [|d ds IH]; intros s Hp.
  - cbn. destruct s as [c t]. cbn. apply f_equal. ring.
  - cbn [map]. unfold run in *. cbn [fold_left]. rewrite IH by exact Hp.
    cbn [step config clock totalElapsed fold_right]. unfold useFrame_tick.
    rewrite Hp. cbn [negb add mul RealArith]. apply f_equal. 
    fold (totalElapsed ds). ring.
Qed.

(** X12. The clock does not depend on the frame rate: in a scene that is
    not paused, after frames of the durations [deltas] the clock has
    advanced by their sum times the speed, and the configuration is
    unchanged; two sequences of frames of the same total duration lead to
    the same scene. *)
Theorem clock_frame_rate_independent (s : Scene R) (deltas deltas' : list R) :
  paused (time (config s)) = false ->
  clock (run s (map (@Frame R) deltas)) =
    clock s + totalElapsed deltas * speed (time (config s)) /\
  config (run s (map (@Frame R) deltas)) = config s /\
  (totalElapsed deltas = totalElapsed deltas' ->
   run s (map (@Frame R) deltas) = run s (map (@Frame R) deltas')).
Proof.
  intros Hp. rewrite !run_frames by exact Hp. cbn [clock config].
  split; [reflexivity|]. split; [reflexivity|].
  intros ->. reflexivity.
Qed.

Lemma clock_frame_rate_independent_witness :
  run (@initialScene R _) (map (@Frame R) [1; 1]) =
  run (@initialScene R _) (map (@Frame R) [1/2; 1/2; 1]).
Proof.
  apply (clock_frame_rate_independent initialScene [1; 1] [1/2; 1/2; 1]).
  - reflexivity.
  - cbn. lra.
Defined.

Lemma step_invariants (s : Scene R) (ev : Event R) :
  validEvent ev ->
  1 / 10 <= speed (time (config s)) <= 5 -> 0 <= clock s ->
  planets (config (step s ev)) = planets (config s) /\
  1 / 10 <= speed (time (config (step s ev))) <= 5 /\
  0 <= clock (step s ev).
Proof.
  intros Hv Hs Hc.
  pose proof (step_clock_le s ev Hv ltac:(lra)) as Hle.
  split; [|split].
  - destruct ev; reflexivity.
  - destruct ev; cbn in *; assumption.
  - lra.
Qed.

(** X13. Along every valid sequence of frames and controls from the
    initial scene the planets stay those of the default configuration,
    the speed stays within the range [[0.1, 5]] of its slider, and the
    clock is not negative. *)
Theorem reachable_scene_invariants (evs : list (Event R)) :
  Forall validEvent evs ->
  planets (config (run initialScene evs)) = planets defaultConfig /\
  1 / 10 <= speed (time (config (run initialScene evs))) <= 5 /\
  0 <= clock (run initialScene evs).
Proof.
  intros Hv.
  assert (Hgen : forall s : Scene R,
            1 / 10 <= speed (time (config s)) <= 5 -> 0 <= clock s ->
            planets (config (run s evs)) = planets (config s) /\
            1 / 10 <= speed (time (config (run s evs))) <= 5 /\
            0 <= clock (run s evs)).
  { induction Hv as [|ev evs Hev Hevs IH]; intros s Hs Hc.
    - cbn. split; [reflexivity|]. split; assumption.
    - destruct (step_invariants s ev Hev Hs Hc) as (Hp & Hs' & Hc').
      destruct (IH (step s ev) Hs' Hc') as (Hp2 & Hs2 & Hc2).
      cbn [run fold_left] in *. unfold run in *.
      split; [congruence|]. split; assumption. }
  apply Hgen; cbn; lra.
Qed.

Lemma reachable_scene_invariants_witness :
  0 <= clock (run (@initialScene R _) [Frame 1; SpeedSlider 5; PlayPauseButton; Frame 2]).
Proof.
  apply (reachable_scene_invariants [Frame 1; SpeedSlider 5; PlayPauseButton; Frame 2]).
  repeat constructor; cbn; lra.
Defined.

(** X14. [updateConfig] composes: applying the updates [first] and then
    the updates [second] is applying once their merge, in which an entry
    of [second] wins over the same entry of [first]; the empty update
    changes nothing; an update applied twice is the update applied once;
    and an entry that the update does not have is left as it was. *)
Theorem updateConfig_composes (c : FullConfig R) (first second : ConfigUpdates R) :
  updateConfig (updateConfig c first) second = updateConfig c (mergeUpdates first second) /\
  updateConfig c noUpdates = c /\
  updateConfig (updateConfig c first) first = updateConfig c first /\
  (new_time first = None -> time (shared (updateConfig c first)) = time (shared c)) /\
  (new_planets first = None ->
   planets (shared (updateConfig c first)) = planets (shared c)).
Proof.
  destruct c as [s [pl tm rn] cam].
  destruct first as [[s1|] [p1|] [t1|] [r1|] [c1|]];
    destruct second as [[s2|] [p2|] [t2|] [r2|] [c2|]];
    (split; [reflexivity|]); (split; [reflexivity|]); (split; [reflexivity|]);
    split; intros Hnone; try discriminate Hnone; reflexivity.
Qed.

Lemma updateConfig_composes_witness :
  time (shared (updateConfig (@defaultFullConfig R _)
                  {| new_sun := None; new_planets := None; new_time := None;
                     new_render := None;
                     new_camera := Some {| mode := follow; followPlanet := 2;
                                           preset := "side" |} |})) =
  time (shared (@defaultFullConfig R _)).
Proof.
  apply (updateConfig_composes defaultFullConfig
           {| new_sun := None; new_planets := None; new_time := None;
              new_render := None;
              new_camera := Some {| mode := follow; followPlanet := 2;
                                    preset := "side" |} |} noUpdates).
  reflexivity.
Defined.

(** * Further properties of the camera, the sun and the name tags *)

(** X15. Whatever the name of the preset, known or not, the position
    that [getCameraPosition] gives is within the zoom range of the
    controls, between [minDistance] and [maxDistance] from their target,
    the origin. *)
Theorem camera_presets_within_zoom_range (preset : string) :
  minDistance <= norm3 (getCameraPosition preset) <= maxDistance.
Proof.
  unfold getCameraPosition, minDistance, maxDistance.
  destruct (String.eqb preset "top");
    [|destruct (String.eqb preset "ecliptic");
      [|destruct (String.eqb preset "side")]];
    cbn [norm3 lit RealArith]; apply sqrt_between; lra.
Qed.

Lemma norm3_length (v : THREE.Vector3 R) :
  norm3 (THREE.x v, THREE.y v, THREE.z v) = THREE.length v.
Proof. reflexivity. Qed.

(** X16. The target of the camera is the origin when the camera is free
    and when the followed index names no planet (no error is raised);
    when it follows a valid planet, the target is the position of that
    planet at the given time, between its periapsis and apoapsis
    distances from the origin. *)
Theorem camera_target (config : FullConfig R) (time : R) :
  (mode (camera config) = free ->
   getCameraTarget config time = (0, 0, 0)) /\
  ((List.length (planets (shared config)) <= followPlanet (camera config))%nat ->
   getCameraTarget config time = (0, 0, 0)) /\
  (forall planet,
     mode (camera config) = follow ->
     nth_error (planets (shared config)) (followPlanet (camera config)) = Some planet ->
     validElements planet ->
     getCameraTarget config time =
       (THREE.x (planetPosition planet time), THREE.y (planetPosition planet time),
        THREE.z (planetPosition planet time)) /\
     semiMajorAxis planet * (1 - eccentricity planet)
       <= norm3 (getCameraTarget config time)
       <= semiMajorAxis planet * (1 + eccentricity planet)).
Proof.
  unfold getCameraTarget. split; [|split].
  - intros ->. reflexivity.
  - intros Hout. apply nth_error_None in Hout. rewrite Hout.
    destruct (mode (camera config)); reflexivity.
  - intros planet -> -> (Ha & He & HP). cbv zeta.
    fold (planetPosition planet time). split; [reflexivity|].
    rewrite norm3_length. unfold planetPosition.
    rewrite position_length_eccentric by assumption.
    apply between_apsides; [assumption | assumption | apply COS_bound].
Qed.

Lemma camera_target_witness :
  let config : FullConfig R :=
    updateConfig defaultFullConfig
      {| new_sun := None; new_planets := None; new_time := None; new_render := None;
         new_camera := Some {| mode := follow; followPlanet := 1; preset := "top" |} |} in
  semiMajorAxis venus * (1 - eccentricity venus)
    <= norm3 (getCameraTarget config 3)
    <= semiMajorAxis venus * (1 + eccentricity venus).
Proof.
  cbv zeta.
  apply (proj2 (proj2 (camera_target
           (updateConfig defaultFullConfig
              {| new_sun := None; new_planets := None; new_time := None;
                 new_render := None;
                 new_camera := Some {| mode := follow; followPlanet := 1;
                                       preset := "top" |} |}) 3)) venus).
  - reflexivity.
  - reflexivity.
  - unfold validElements. cbn. lra.
Defined.

(** X17. For a sun of positive radius, at every time: the scale of the
    body stays within [[0.95, 1.05]], that of the corona within
    [[0.85, 1.15]] and that of the outer glow within [[0.92, 1.08]]; the
    white core never exceeds the pulsing body; and the outer glow always
    encloses both the corona and the body. *)
Theorem sun_layers (config : FullConfig R) (elapsedTime : R) :
  0 < sun_radius (sun config) ->
  95 / 100 <= pulse elapsedTime <= 105 / 100 /\
  85 / 100 <= coronaPulse elapsedTime <= 115 / 100 /\
  92 / 100 <= glowPulse elapsedTime <= 108 / 100 /\
  coreRadius config <= bodyRadius config elapsedTime /\
  coronaRadius config elapsedTime < outerGlowRadius config elapsedTime /\
  bodyRadius config elapsedTime < outerGlowRadius config elapsedTime.
Proof.
  intros HR.
  unfold coreRadius, bodyRadius, coronaRadius, outerGlowRadius,
    pulse, coronaPulse, glowPulse, tenths, hundredths.
  cbn [add mul div Math_sin lit RealArith].
  pose proof (SIN_bound (elapsedTime * (5 / 10))) as [H1 H2].
  pose proof (SIN_bound (elapsedTime * (7 / 10))) as [H3 H4].
  pose proof (SIN_bound (elapsedTime * (3 / 10))) as [H5 H6].
  set (R0 := sun_radius (sun config)) in *.
  set (s1 := sin (elapsedTime * (5 / 10))) in *.
  set (s2 := sin (elapsedTime * (7 / 10))) in *.
  set (s3 := sin (elapsedTime * (3 / 10))) in *.
  repeat split; nra.
Qed.

Lemma sun_layers_witness :
  coreRadius (@defaultFullConfig R _) <= bodyRadius defaultFullConfig 7 /\
  coronaRadius (@defaultFullConfig R _) 7 < outerGlowRadius defaultFullConfig 7.
Proof.
  split; apply (sun_layers defaultFullConfig 7); cbn; lra.
Defined.

(** ** The spin of a planet *)

Lemma js_div_zero_not_finite_mul (a : jsnum) :
  isFinite (js_mul (js_mul (js_div a (Fin 0)) (Fin PI)) (Fin 2)) = false.
Proof.
  apply js_mul_pos_not_finite; [lra|].
  apply js_mul_pos_not_finite; [exact PI_RGT_0|].
  apply js_div_zero.
Qed.

(** X18. A planet with a non-zero rotation period turns by exactly one
    full turn per rotation period, and its rotation angle is additive in
    the time.  With a rotation period of zero the angle that the frame
    callback writes is an infinity or [NaN], at every time. *)
Theorem planet_spin (planet : Planet R) (t t' : R) :
  rotationPeriod planet <> 0 ->
  rotationAngle planet (t + rotationPeriod planet) = rotationAngle planet t + 2 * PI /\
  rotationAngle planet (t + t') = rotationAngle planet t + rotationAngle planet t' /\
  (forall (broken : Planet jsnum) (time : jsnum),
      rotationPeriod broken = Fin 0 ->
      isFinite (rotationAngle broken time) = false).
Proof.
  intros HT. unfold rotationAngle.
  cbn [mul div lit Math_PI RealArith].
  split; [field; assumption|]. split; [field; assumption|].
  intros broken time ->. js_ops. apply js_div_zero_not_finite_mul.
Qed.

Lemma planet_spin_witness :
  rotationAngle mercury (3 + rotationPeriod mercury) = rotationAngle mercury 3 + 2 * PI.
Proof.
  apply (planet_spin mercury 3 0). cbn. lra.
Defined.

(** ** The name tag *)

Lemma cross_up (d : THREE.Vector3 R) :
  Vector3.crossVectors d (THREE.mkVector3 0 1 0) =
  THREE.mkVector3 (- THREE.z d) 0 (THREE.x d).
Proof.
  unfold Vector3.crossVectors. cbn [THREE.x THREE.y THREE.z].
  apply (f_equal3 (@THREE.mkVector3 R)); ring.
Qed.

Lemma length_horizontal (a c : R) :
  THREE.length (THREE.mkVector3 a 0 c) = sqrt (a * a + c * c).
Proof.
  unfold THREE.length. cbn [THREE.x THREE.y THREE.z]. apply f_equal. ring.
Qed.

(** A horizontal vector that is not zero is normalized by its length. *)
Lemma normalize_horizontal (a c : R) :
  a <> 0 \/ c <> 0 ->
  Vector3.normalize (THREE.mkVector3 a 0 c) =
  THREE.mkVector3 (a / sqrt (a * a + c * c)) 0 (c / sqrt (a * a + c * c)).
Proof.
  intros Hnz. pose proof (sqrt_sum_squares_pos a c Hnz) as Hd.
  unfold Vector3.normalize. rewrite length_horizontal.
  destruct (Req_dec_T (sqrt (a * a + c * c)) 0) as [H0|_]; [lra|].
  unfold Vector3.divideScalar. cbn [THREE.x THREE.y THREE.z].
  apply (f_equal3 (@THREE.mkVector3 R)); [reflexivity | | reflexivity].
  unfold Rdiv. ring.
Qed.

(** The zero vector stays the zero vector. *)
Lemma normalize_zero :
  Vector3.normalize (THREE.mkVector3 0 0 0) = THREE.mkVector3 0 0 0.
Proof.
  unfold Vector3.normalize. rewrite length_horizontal.
  replace (0 * 0 + 0 * 0) with 0 by ring. rewrite sqrt_0.
  destruct (Req_dec_T 0 0) as [_|Hne]; [|contradiction].
  unfold Vector3.divideScalar. cbn [THREE.x THREE.y THREE.z].
  apply (f_equal3 (@THREE.mkVector3 R)); unfold Rdiv; ring.
Qed.

(** X19. The name tag is placed at the height of the planet, never
    tilted (its rotations about x and z are [0]).  When the camera does
    not look straight up or down, the tag is at the horizontal distance
    [planetRadius + 1.5] from the planet; when it does, the tag is at the
    centre of the planet.  And when the camera is not on the vertical of
    the tag, the rotation about y turns the tag towards the camera: its
    sine and cosine are the horizontal direction from the tag to the
    camera. *)
Theorem name_tag_placement (cameraDirection cameraPos planetPosition : THREE.Vector3 R)
    (planetRadius : R) :
  let tag := placeNameTag cameraDirection cameraPos planetPosition planetRadius in
  let ex := THREE.x cameraPos - THREE.x (tagPosition tag) in
  let ez := THREE.z cameraPos - THREE.z (tagPosition tag) in
  THREE.y (tagPosition tag) = THREE.y planetPosition /\
  THREE.x (tagRotation tag) = 0 /\
  THREE.z (tagRotation tag) = 0 /\
  (THREE.x cameraDirection <> 0 \/ THREE.z cameraDirection <> 0 ->
   (THREE.x (tagPosition tag) - THREE.x planetPosition) ^ 2 +
   (THREE.z (tagPosition tag) - THREE.z planetPosition) ^ 2 =
   (planetRadius + 3 / 2) ^ 2) /\
  (THREE.x cameraDirection = 0 /\ THREE.z cameraDirection = 0 ->
   tagPosition tag = planetPosition) /\
  (ex <> 0 \/ ez <> 0 ->
   sin (THREE.y (tagRotation tag)) = ex / sqrt (ex * ex + ez * ez) /\
   cos (THREE.y (tagRotation tag)) = ez / sqrt (ex * ex + ez * ez)).
Proof.
  cbv zeta. unfold placeNameTag. cbv zeta.
  cbn [tagPosition tagRotation THREE.x THREE.y THREE.z].
  rewrite cross_up.
  set (dx := THREE.x cameraDirection). set (dz := THREE.z cameraDirection).
  split; [|split; [reflexivity|split; [reflexivity|split; [|split]]]].
  - (* the height *)
    destruct (Req_dec dx 0) as [Hx|Hx]; [destruct (Req_dec dz 0) as [Hz|Hz]|].
    + rewrite Hx, Hz. replace (- 0) with 0 by ring. rewrite normalize_zero.
      cbn [Vector3.multiplyScalar Vector3.add THREE.x THREE.y THREE.z]. ring.
    + rewrite normalize_horizontal by (left; lra).
      cbn [Vector3.multiplyScalar Vector3.add THREE.x THREE.y THREE.z]. ring.
    + rewrite normalize_horizontal by (right; lra).
      cbn [Vector3.multiplyScalar Vector3.add THREE.x THREE.y THREE.z]. ring.
  - (* the distance *)
    intros Hnz.
    assert (Hnz' : - dz <> 0 \/ dx <> 0) by (destruct Hnz; [right | left]; lra).
    rewrite normalize_horizontal by exact Hnz'.
    pose proof (sqrt_sum_squares_pos _ _ Hnz') as Hd.
    cbn [Vector3.multiplyScalar Vector3.add THREE.x THREE.y THREE.z].
    set (L := sqrt (- dz * - dz + dx * dx)) in *.
    assert (HL : L * L = - dz * - dz + dx * dx) by (apply sqrt_sqrt; nra).
    transitivity ((- dz * - dz + dx * dx) / (L * L) * (planetRadius + 3 / 2) ^ 2);
      [field; lra|].
    rewrite <- HL. field. lra.
  - (* the camera looks straight up or down *)
    intros [Hx Hz]. rewrite Hx, Hz. replace (- 0) with 0 by ring.
    rewrite normalize_zero.
    destruct planetPosition as [px py pz].
    unfold Vector3.add, Vector3.multiplyScalar. cbn [THREE.x THREE.y THREE.z].
    apply (f_equal3 (@THREE.mkVector3 R)); ring.
  - (* the tag faces the camera *)
    set (tagPos := Vector3.add planetPosition _).
    intros Hnz.
    rewrite normalize_horizontal by exact Hnz.
    cbn [THREE.x THREE.y THREE.z].
    set (ex := THREE.x cameraPos - THREE.x tagPos) in *.
    set (ez := THREE.z cameraPos - THREE.z tagPos) in *.
    pose proof (sqrt_sum_squares_pos _ _ Hnz) as Hd.
    set (D := sqrt (ex * ex + ez * ez)) in *.
    assert (HD : D * D = ex * ex + ez * ez) by (apply sqrt_sqrt; nra).
    assert (Hunit : ez / D * (ez / D) + ex / D * (ex / D) = 1).
    { transitivity ((ex * ex + ez * ez) / (D * D)); [field; lra|].
      rewrite <- HD. field. lra. }
    assert (Hnz2 : ez / D <> 0 \/ ex / D <> 0).
    { destruct Hnz as [Hx|Hz]; [right | left];
        unfold Rdiv; apply Rmult_integral_contrapositive_currified;
        try assumption; apply Rinv_neq_0_compat; lra. }
    destruct (Ratan2_polar (ex / D) (ez / D) Hnz2) as [Hc Hs].
    rewrite Hunit, sqrt_1 in Hc, Hs.
    rewrite Hc, Hs. split; field; lra.
Qed.

Lemma name_tag_placement_witness :
  let tag := placeNameTag (THREE.mkVector3 (-1) 0 0) (THREE.mkVector3 25 0 0)
                          (THREE.mkVector3 8 0 0) 1 in
  (THREE.x (tagPosition tag) - 8) ^ 2 + (THREE.z (tagPosition tag) - 0) ^ 2 =
  (1 + 3 / 2) ^ 2.
Proof.
  apply (name_tag_placement (THREE.mkVector3 (-1) 0 0) (THREE.mkVector3 25 0 0)
           (THREE.mkVector3 8 0 0) 1).
  left. cbn. lra.
Defined.

(** * The trail when the clock is [NaN] *)

Lemma js_add_NaN_l (b : jsnum) : js_add NaN b = NaN.
Proof. destruct b; reflexivity. Qed.

Lemma trailTime_NaN (planet : Planet jsnum) (i : nat) : trailTime planet NaN i = NaN.
Proof. unfold trailTime. cbv zeta. js_ops. unfold js_sub. apply js_add_NaN_l. Qed.

Lemma calculateOrbitalPosition_NaN_time (a e P i Om om : jsnum) :
  calculateOrbitalPosition NaN a e P i Om om = THREE.mkVector3 NaN NaN NaN.
Proof.
  apply calculateOrbitalPosition_NaN_anomaly.
  rewrite eccentricAnomaly_not_finite; [apply trueAnomaly_of_NaN|].
  unfold meanAnomaly. js_ops. destruct P; reflexivity.
Qed.

Lemma trail_loop_NaN (fuel i : nat) (planet : Planet jsnum)
    (acc : list (TrailSegment jsnum)) :
  trail_loop fuel i planet NaN acc =
  acc ++ map (fun j => {| position := THREE.mkVector3 NaN NaN NaN;
                          opacity := trailOpacity j |}) (seq i fuel).
Proof.
  revert i acc. induction fuel as [|fuel IH]; intros i acc.
  - cbn. now rewrite app_nil_r.
  - cbn [trail_loop seq map]. cbv zeta.
    rewrite trailTime_NaN, calculateOrbitalPosition_NaN_time.
    cbn [lt SpecialArith js_lt]. rewrite IH, <- app_assoc. reflexivity.
Qed.

(** X20. The guard [trailTime < 0] does not stop a clock that is [NaN]:
    for every planet the loop then pushes all its sixty segments, each
    with a position whose three coordinates are [NaN], and, when trails
    are shown, [Trail] renders fifty-nine lines between them. *)
Theorem trail_at_NaN_clock (config : SolarSystemConfig jsnum) (planet : Planet jsnum) :
  generatedSegments planet NaN =
    map (fun j => {| position := THREE.mkVector3 NaN NaN NaN;
                     opacity := trailOpacity j |}) (seq 0 60) /\
  List.length (generatedSegments planet NaN) = 60%nat /\
  (showTrails (render config) = true ->
   exists lines, Trail config planet NaN = Some lines /\ List.length lines = 59%nat).
Proof.
  assert (Hgen : generatedSegments planet NaN =
            map (fun j => {| position := THREE.mkVector3 NaN NaN NaN;
                             opacity := trailOpacity j |}) (seq 0 60)).
  { unfold generatedSegments, numSegments. rewrite trail_loop_NaN. reflexivity. }
  assert (Hlen : List.length (generatedSegments planet NaN) = 60%nat)
    by (rewrite Hgen, length_map, length_seq; reflexivity).
  split; [exact Hgen|]. split; [exact Hlen|].
  intros Hshow. unfold Trail, trailSegments. cbv zeta. rewrite Hshow.
  cbn [negb orb]. rewrite length_rev, Hlen. cbn [Nat.ltb Nat.leb].
  eexists. split; [reflexivity|].
  rewrite trailLines_length, length_rev, Hlen. reflexivity.
Qed.

Lemma trail_at_NaN_clock_witness :
  exists lines,
    Trail (updateConfig_render (@defaultConfig jsnum _)
             (mkRenderConfig true true (Fin 100) true))
          (mkPlanet (Fin 1) (Fin 8) (Fin (1/5)) "#8C7853" (Fin 12) (Fin 1)
                    (Fin 15) (Fin 0) (Fin 0) (Fin 23) "Mercury")
          NaN = Some lines /\
    List.length lines = 59%nat.
Proof.
  apply (trail_at_NaN_clock
           (updateConfig_render (@defaultConfig jsnum _)
              (mkRenderConfig true true (Fin 100) true))
           (mkPlanet (Fin 1) (Fin 8) (Fin (1/5)) "#8C7853" (Fin 12) (Fin 1)
                     (Fin 15) (Fin 0) (Fin 0) (Fin 23) "Mercury")).
  reflexivity.
Defined.

(** * The two ends of the range of the eccentricity *)

Lemma kepler_loop_circular (n : nat) (M x : R) : kepler_loop (S n) M 0 x = M.
Proof.
  revert x. induction n as [|n IH]; intros x.
  - cbn [kepler_loop]. cbn [add mul Math_sin RealArith]. ring.
  - change (kepler_loop (S (S n)) M 0 x)
      with (kepler_loop (S n) M 0 (M + 0 * Math_sin x)%js).
    apply IH.
Qed.

(** X21. With eccentricity [0] the motion is uniform on a circle: the
    eccentric anomaly is the mean anomaly [M = 2 PI t / P] itself, and
    the position is the rotated point [(a cos M, a sin M, 0)]; when the
    three orientation angles are [0] it is that point. *)
Theorem circular_orbit_uniform (t a P i Om om : R) :
  0 < a -> 0 < P ->
  let M := t / P * (2 * PI) in
  eccentricAnomaly (meanAnomaly t P) 0 = M /\
  calculateOrbitalPosition t a 0 P i Om om =
    Reference.mat_vec (Reference.orientation i Om om)
      (THREE.mkVector3 (a * cos M) (a * sin M) 0) /\
  calculateOrbitalPosition t a 0 P 0 0 0 = THREE.mkVector3 (a * cos M) (a * sin M) 0.
Proof.
  intros Ha HP M.
  assert (HE : eccentricAnomaly (meanAnomaly t P) 0 = M).
  { unfold eccentricAnomaly. rewrite kepler_loop_circular.
    unfold meanAnomaly, M. cbn [mul div lit Math_PI RealArith]. ring. }
  assert (Hpos : forall i' Om' om',
            calculateOrbitalPosition t a 0 P i' Om' om' =
            Reference.mat_vec (Reference.orientation i' Om' om')
              (THREE.mkVector3 (a * cos M) (a * sin M) 0)).
  { intros i' Om' om'.
    destruct (calculateOrbitalPosition_eccentric t a 0 P i' Om' om' ltac:(lra))
      as (_ & Hp).
    cbv zeta in Hp. rewrite HE in Hp. rewrite Hp. apply f_equal.
    replace (1 - 0 * 0) with 1 by ring. rewrite sqrt_1.
    apply (f_equal2 (fun u v => THREE.mkVector3 u v 0)); ring. }
  split; [exact HE|]. split; [apply Hpos|].
  rewrite Hpos.
  unfold Reference.orientation, Reference.radians, Reference.R_z, Reference.R_x.
  replace (0 * (PI / 180)) with 0 by ring. rewrite sin_0, cos_0.
  generalize (a * cos M) (a * sin M). intros u v.
  cbv [Reference.mat_vec Reference.mat_mul Reference.dot
       Reference.column_x Reference.column_y Reference.column_z
       THREE.x THREE.y THREE.z].
  apply (f_equal3 (@THREE.mkVector3 R)); ring.
Qed.

Lemma circular_orbit_uniform_witness :
  calculateOrbitalPosition 25 10 0 100 0 0 0 =
  THREE.mkVector3 (10 * cos (25 / 100 * (2 * PI))) (10 * sin (25 / 100 * (2 * PI))) 0.
Proof.
  apply (circular_orbit_uniform 25 10 100 0 0 0); lra.
Defined.

(** X22. With an eccentricity above [1] (finite arguments, any period)
    the call still returns, without an error, and the three coordinates
    it returns are [NaN]: the square root of [1 - eccentricity] is. *)
Theorem eccentricity_above_one_returns_NaN (t a e P i Om om : R) :
  1 < e ->
  call_calculateOrbitalPosition (Fin t) (Fin a) (Fin e) (Fin P)
                                (Fin i) (Fin Om) (Fin om) =
  Returns (THREE.mkVector3 NaN NaN NaN).
Proof.
  intros He. unfold call_calculateOrbitalPosition.
  rewrite calculateOrbitalPosition_hyperbolic by exact He. reflexivity.
Qed.

Lemma eccentricity_above_one_returns_NaN_witness :
  call_calculateOrbitalPosition (Fin 3) (Fin 8) (Fin 2) (Fin 12)
                                (Fin 15) (Fin 0) (Fin 0) =
  Returns (THREE.mkVector3 NaN NaN NaN).
Proof.
  apply (eccentricity_above_one_returns_NaN 3 8 2 12 15 0 0). lra.
Defined.
